(** * evm.c: a byte-coded virtual machine with I/O, persistence and indexing

    Shallow embedding of the processing unit ([struct PU]), the operand
    access functions, the eleven opcode handlers, the execution loop and
    the image store, followed by the properties established about them.

    Conventions of the embedding:
    - a C [unsigned] is a [Z] reduced modulo [2^32] after every arithmetic
      operation ([u32]); an [unsigned char] is reduced modulo [2^8] ([u8]);
    - the register file [r] and the memory pool [pmem] are lists, read with
      stdpp's lookup and updated with its insert; an index outside the array
      is undefined behaviour in C and is an explicit [Fault] here;
    - a failed [assert] is the fault [AssertFail] (the process aborts);
    - the global [debug] flag is 0 (no [-d] on the command line), so
      [dump_state] returns at once and the three [if (debug) printf] lines
      of the image store and of [main] print nothing; they are left out. *)

From stdpp Require Import base numbers list list_numbers gmap strings.
Local Open Scope Z_scope.

(** ** Machine integers *)

Definition u32 (z : Z) : Z := z `mod` 2 ^ 32.
Definition u8 (z : Z) : Z := z `mod` 256.

(** Reading an [unsigned] back as an [int] (two's complement). *)
Definition s32 (z : Z) : Z := if bool_decide (z < 2 ^ 31) then z else z - 2 ^ 32.

(** ** Outcomes of a computation *)

Inductive fault : Type :=
  | AssertFail              (* assert(...) failed: abort() *)
  | OobReg (i : Z)          (* r[i] with i outside 0..7 *)
  | OobMem (i : Z)          (* pmem[i] outside the pool *)
  | OobOp (i : Z).          (* op[i] with i outside 0..31 *)

Inductive result (A : Type) : Type :=
  | Ok (a : A)
  | Fault (f : fault).
Arguments Ok {A} a.
Arguments Fault {A} f.

Global Instance result_bind : MBind result := λ A B f m,
  match m with
  | Ok a => f a
  | Fault e => Fault e
  end.

Definition is_ok {A} (m : result A) : bool :=
  match m with Ok _ => true | Fault _ => false end.

(** ** The processing unit *)

Record PU : Type := mkPU {
  pc : Z;            (* counter *)
  fr : Z;            (* flags register *)
  r : list Z;        (* registers, [unsigned r[8]] *)
  pmem : list Z;     (* RAM *)
  pmemsize : Z       (* RAM size in bytes *)
}.

Definition set_pc (s : PU) (v : Z) : PU := mkPU v (fr s) (r s) (pmem s) (pmemsize s).
Definition set_fr (s : PU) (v : Z) : PU := mkPU (pc s) v (r s) (pmem s) (pmemsize s).
Definition set_r (s : PU) (v : list Z) : PU := mkPU (pc s) (fr s) v (pmem s) (pmemsize s).
Definition set_pmem (s : PU) (v : list Z) : PU := mkPU (pc s) (fr s) (r s) v (pmemsize s).

(** Opcode numbers, [enum Ops]. *)
Definition SUS : Z := 0.
Definition MOV : Z := 1.
Definition ADD : Z := 2.
Definition SUB : Z := 3.
Definition JIF : Z := 4.
Definition JMR : Z := 5.
Definition MPC : Z := 6.
Definition IN : Z := 7.
Definition OUT : Z := 8.
Definition AT : Z := 9.
Definition ATP : Z := 10.

Definition FL_ZERO : Z := 1.
Definition FL_CARRY : Z := 2.

Definition isflag (s : PU) (f : Z) : Z := Z.land (fr s) f.
Definition setflag (s : PU) (e : bool) (f : Z) : PU :=
  if e then set_fr s (Z.lor (fr s) f)
  else set_fr s (Z.land (fr s) (u32 (Z.lnot f))).
Definition setzf (s : PU) (e : bool) : PU := setflag s e FL_ZERO.
Definition setcf (s : PU) (e : bool) : PU := setflag s e FL_CARRY.

(** The operand encoding: low bit 1 is a number, low bit 0 an index. *)
Definition num_ (n : Z) : Z := u32 (n * 2 + 1).
Definition addr_ (p : Z) : Z := u32 (p * 2).
Definition reg_ (p : Z) : Z := addr_ p.
Definition tonum (e : Z) : Z := Z.shiftr e 1.
Definition isnum (e : Z) : Z := Z.land e 1.

Definition R0 : Z := Eval cbv in reg_ 0.
Definition R1 : Z := Eval cbv in reg_ 1.
Definition R2 : Z := Eval cbv in reg_ 2.
Definition R3 : Z := Eval cbv in reg_ 3.
Definition R4 : Z := Eval cbv in reg_ 4.
Definition R5 : Z := Eval cbv in reg_ 5.
Definition R6 : Z := Eval cbv in reg_ 6.
Definition R7 : Z := Eval cbv in reg_ 7.
Definition N0 : Z := Eval cbv in num_ 0.
Definition N1 : Z := Eval cbv in num_ 1.

(** ** Array accesses, with the C bounds made explicit *)

Definition at_index {A} (a : list A) (i : Z) : option A :=
  if bool_decide (0 ≤ i) then a !! Z.to_nat i else None.

Definition reg_get (s : PU) (i : Z) : result Z :=
  match at_index (r s) i with
  | Some v => Ok v
  | None => Fault (OobReg i)
  end.

Definition mem_get (s : PU) (i : Z) : result Z :=
  match at_index (pmem s) i with
  | Some v => Ok v
  | None => Fault (OobMem i)
  end.

Definition reg_set (s : PU) (i v : Z) : result PU :=
  match at_index (r s) i with
  | Some _ => Ok (set_r s (<[Z.to_nat i := v]> (r s)))
  | None => Fault (OobReg i)
  end.

(** A store into the pool converts the value to [unsigned char]. *)
Definition mem_set (s : PU) (i v : Z) : result PU :=
  match at_index (pmem s) i with
  | Some _ => Ok (set_pmem s (<[Z.to_nat i := u8 v]> (pmem s)))
  | None => Fault (OobMem i)
  end.

(** [pcore->pmem[pcore->pc++]] *)
Definition fetch (s : PU) : result (Z * PU) :=
  b ← mem_get s (pc s);
  Ok (b, set_pc s (u32 (pc s + 1))).

(** ** Resolved-value access *)

(** Which array an index selects: the guard of [obj_read] and
    [obj_write] is [expr < 16]. *)
Inductive cell : Type :=
  | InReg (i : Z)
  | InMem (i : Z).

Definition obj_cell (idx : Z) : cell :=
  if bool_decide (idx < 16) then InReg idx else InMem idx.

Definition cell_get (s : PU) (c : cell) : result Z :=
  match c with
  | InReg i => reg_get s i
  | InMem i => mem_get s i
  end.

Definition cell_set (s : PU) (c : cell) (v : Z) : result PU :=
  match c with
  | InReg i => reg_set s i v
  | InMem i => mem_set s i v
  end.

Definition obj_read (s : PU) (expr : Z) : result Z :=
  if bool_decide (isnum expr ≠ 0) then Ok (tonum expr)
  else cell_get s (obj_cell (expr `div` 2)).

Definition obj_write (s : PU) (addr expr : Z) : result PU :=
  if bool_decide (isnum addr ≠ 0) then Fault AssertFail
  else
    v ← obj_read s expr;
    cell_set s (obj_cell (addr `div` 2)) v.

(** ** Input and output

    [stdin] lists what the successive blocking reads deliver: the [int]
    returned by [getchar], or the [int] that [scanf("%d")] converts.  At
    the end of the list [getchar] returns [EOF] and [scanf] leaves [n]
    at its initial 0. *)

Inductive out_event : Type :=
  | PutChar (c : Z)
  | PrintNum (n : Z)
  | ErrorLine (text : string) (args : list Z).
    (* printf of [text] with [args], then a newline *)

(** What goes to the standard error stream: [perror] with its prefix. *)
Inductive err_event : Type :=
  | Perror (prefix : string).

Record World : Type := mkWorld {
  stdin : list Z;
  stdout : list out_event;
  tty : bool
}.

Definition IO_CHR : Z := 0.
Definition IO_NUM : Z := 1.
Definition IO_STR : Z := 2.
Definition EOF : Z := -1.

Definition emit (w : World) (e : out_event) : World :=
  mkWorld (stdin w) (stdout w ++ [e]) (tty w).

Definition getinp (w : World) (ch : Z) : Z * World :=
  if bool_decide (ch = IO_CHR) then
    match stdin w with
    | c :: rest => (u32 c, mkWorld rest (stdout w) (tty w))
    | [] => (u32 EOF, w)
    end
  else if bool_decide (ch = IO_NUM) then
    let w := if tty w then emit w (PutChar 63) else w in
    match stdin w with
    | n :: rest => (u32 n, mkWorld rest (stdout w) (tty w))
    | [] => (u32 0, w)
    end
  else (0, w).

Definition putout (w : World) (ch n : Z) : World :=
  if bool_decide (ch = IO_CHR) then emit w (PutChar (u8 n))
  else if bool_decide (ch = IO_NUM) then emit w (PrintNum (s32 n))
  else w.

(** ** Opcode handlers *)

Definition op_SUS (s : PU) : result PU := Ok s.

Definition op_MOV (s : PU) : result PU :=
  '(expr, s) ← fetch s;
  '(addr, s) ← fetch s;
  obj_write s addr expr.

Definition op_ATP (s : PU) : result PU :=
  '(expr, s) ← fetch s;
  '(ixreg, s) ← fetch s;
  if bool_decide (isnum ixreg ≠ 0) then Fault AssertFail
  else
    a ← obj_read s ixreg;
    obj_write s (addr_ a) expr.

Definition op_AT (s : PU) : result PU :=
  '(ixreg, s) ← fetch s;
  '(addr, s) ← fetch s;
  if bool_decide (isnum ixreg ≠ 0) then Fault AssertFail
  else if bool_decide (isnum addr ≠ 0) then Fault AssertFail
  else
    a ← obj_read s ixreg;
    obj_write s addr (addr_ a).

Definition op_ADD (s : PU) : result PU :=
  '(expr, s) ← fetch s;
  '(addr, s) ← fetch s;
  old ← obj_read s addr;
  delta ← obj_read s expr;
  let new := u32 (old + delta) in
  let s := setcf s (bool_decide (new < old)) in
  let s := setzf s (bool_decide (new = 0)) in
  obj_write s addr (num_ new).

Definition op_SUB (s : PU) : result PU :=
  '(expr, s) ← fetch s;
  '(addr, s) ← fetch s;
  old ← obj_read s addr;
  delta ← obj_read s expr;
  let new := u32 (old - delta) in
  let s := setcf s (bool_decide (new > old)) in
  let s := setzf s (bool_decide (new = 0)) in
  obj_write s addr (num_ new).

Definition op_JIF (s : PU) : result PU :=
  '(flag, s) ← fetch s;
  '(addr, s) ← fetch s;
  if bool_decide (isflag s flag = 0) then
    v ← obj_read s addr;
    Ok (set_pc s v)
  else Ok s.

Definition op_JMR (s : PU) : result PU :=
  '(addr, s) ← fetch s;
  v ← obj_read s addr;
  Ok (set_pc s v).

Definition op_MPC (s : PU) : result PU :=
  '(addr, s) ← fetch s;
  obj_write s addr (num_ (pc s)).

Definition op_IN (s : PU) (w : World) : result (PU * World) :=
  '(ch, s) ← fetch s;
  '(addr, s) ← fetch s;
  let '(inp, w) := getinp w ch in
  s ← obj_write s addr (num_ inp);
  Ok (s, w).

Definition op_OUT (s : PU) (w : World) : result (PU * World) :=
  '(ch, s) ← fetch s;
  '(addr, s) ← fetch s;
  v ← obj_read s addr;
  Ok (s, putout w ch v).

(** ** The handler table [op[32]] of [Core1] and the execution loop *)

Definition handler : Type := PU → World → result (PU * World).

Definition no_io (f : PU → result PU) : handler :=
  λ s w, s' ← f s; Ok (s', w).

(** Entries 0..10 are set by the initialiser of [Core1]; the other
    entries of the 32-element table are null. *)
Definition op (icode : Z) : result (option handler) :=
  if bool_decide (0 ≤ icode < 32) then
    Ok (match icode with
        | 0 => Some (no_io op_SUS)
        | 1 => Some (no_io op_MOV)
        | 2 => Some (no_io op_ADD)
        | 3 => Some (no_io op_SUB)
        | 4 => Some (no_io op_JIF)
        | 5 => Some (no_io op_JMR)
        | 6 => Some (no_io op_MPC)
        | 7 => Some op_IN
        | 8 => Some op_OUT
        | 9 => Some (no_io op_AT)
        | 10 => Some (no_io op_ATP)
        | _ => None
        end)
  else Fault (OobOp icode).

Inductive status : Type := RUNNING | HALTED.

(** One iteration of the [do ... while] of [resume_core]. *)
Definition step (s : PU) (w : World) : result (PU * World * status) :=
  '(icode, s) ← fetch s;
  let icode := u8 icode in
  h ← op icode;
  match h with
  | Some f =>
      '(s, w) ← f s w;
      Ok (s, w, if bool_decide (icode ≠ SUS) then RUNNING else HALTED)
  | None => Ok (s, w, HALTED)
  end.

(** The loop itself; [None] when the fuel runs out before a halt. *)
Fixpoint resume_core (fuel : nat) (s : PU) (w : World) : option (result (PU * World)) :=
  match fuel with
  | O => None
  | S fuel =>
      match step s w with
      | Fault e => Some (Fault e)
      | Ok (s, w, HALTED) => Some (Ok (s, w))
      | Ok (s, w, RUNNING) => resume_core fuel s w
      end
  end.

(** ** The built-in bootstrap image [MEM] *)

Definition MEM_SIZE : Z := 128.
Definition NVARS : Z := 4.
Definition VARS : Z := MEM_SIZE - NVARS.
Definition GREET_SIZE : Z := 3.
Definition GREET : Z := VARS - GREET_SIZE - 1.

Definition MEM : list Z :=
  [ IN; IO_NUM; R1;
    IN; IO_NUM; R2;
    MOV; num_ VARS; R3;
    ATP; R1; R3;
    MOV; R1; R7;
    MPC; R4;
    IN; IO_NUM; R5;
    ATP; R5; R7;
    ADD; N1; R7;
    SUB; N1; R2;
    JIF; FL_ZERO; R4;
    MPC; addr_ GREET;
    MOV; num_ (GREET + 1); R7;
    IN; IO_NUM; R2;
    IN; IO_NUM; R6;
    MOV; num_ 48; R3;
    JMR; addr_ VARS;
    SUS;
    JMR; addr_ GREET ] ++ replicate 77 0.

(** [struct PU Core1]: a static object, so every field that the
    initialiser does not name starts at zero. *)
Definition Core1 : PU := mkPU 0 0 (replicate 8 0) [] 0.

(** ** The image store

    A file is the list of its bytes; the file system maps names to files.
    The four header fields are [unsigned] in host order, taken to be
    little endian.  The names of the map are the files that [open] can
    read; [read] and [write] on these regular files transfer everything
    that is asked for and available. *)

Record imageheader : Type := mkHeader {
  h_magic : Z;
  h_size : Z;
  h_memsize : Z;
  h_pc : Z
}.

Definition MAGIC : Z := 0x2017.
Definition sizeof_h : Z := 16.

Definition put_u32 (z : Z) : list Z := Z_to_little_endian 4 8 z.
Definition get_u32 (bs : list Z) : Z := little_endian_to_Z 8 bs.

Definition header_bytes (h : imageheader) : list Z :=
  put_u32 (h_magic h) ++ put_u32 (h_size h) ++ put_u32 (h_memsize h) ++ put_u32 (h_pc h).

Definition header_of_bytes (bs : list Z) : imageheader :=
  mkHeader (get_u32 (take 4 bs))
           (get_u32 (take 4 (drop 4 bs)))
           (get_u32 (take 4 (drop 8 bs)))
           (get_u32 (take 4 (drop 12 bs))).

(** [open] with [O_CREAT|O_EXCL] fails when the name exists, and it can
    fail for a free name as well (a missing directory, no permission, an
    empty name): [creat name] tells whether the free name [name] can be
    created.  When [open] fails nothing is written and [perror] reports
    it; otherwise the pool is written in one [write] of [h.memsize]
    bytes. *)
Definition save_image (s : PU) (filename : option string)
    (creat : string → bool) (fs : gmap string (list Z)) : gmap string (list Z) :=
  match filename with
  | None => fs
  | Some name =>
      match fs !! name with
      | Some _ => fs
      | None =>
          if creat name then
            let h := mkHeader MAGIC (u32 (sizeof_h + pmemsize s)) (pmemsize s) (pc s) in
            let body := if bool_decide (0 < h_memsize h)
                        then take (Z.to_nat (h_memsize h)) (pmem s) else [] in
            <[name := header_bytes h ++ body]> fs
          else fs
      end
  end.

(** The [perror(filename)] of [save_image] when [open] fails. *)
Definition save_stderr (filename : option string)
    (creat : string → bool) (fs : gmap string (list Z)) : list err_event :=
  match filename with
  | None => []
  | Some name =>
      match fs !! name with
      | Some _ => [Perror name]
      | None => if creat name then [] else [Perror name]
      end
  end.

(** The ways in which [load_image] returns -1, each with what its
    message is made of. *)
Inductive load_error : Type :=
  | ErrOpen (name : string)          (* perror(filename) after open *)
  | ErrShortHeader (name : string)   (* perror(filename) after the header read *)
  | ErrBadMagic (magic : Z)          (* printf("error: bad magic %x\n") *)
  | ErrSizeMismatch (memsize : Z)    (* printf("error: memory size mismatch %d\n") *)
  | ErrPcBeyond (pc0 memsize : Z)    (* printf("error: pc %d beyond memory %d\n") *)
  | ErrShortBody (name : string).    (* perror(filename) in the body loop *)

(** The line that the failing path prints on the standard output. *)
Definition load_stdout (e : load_error) : list out_event :=
  match e with
  | ErrBadMagic magic => [ErrorLine "error: bad magic %x" [magic]]
  | ErrSizeMismatch memsize =>
      [ErrorLine "error: memory size mismatch %d" [s32 memsize]]
  | ErrPcBeyond pc0 memsize =>
      [ErrorLine "error: pc %d beyond memory %d" [s32 pc0; s32 memsize]]
  | _ => []
  end.

(** The [perror] of the failing path. *)
Definition load_stderr (e : load_error) : list err_event :=
  match e with
  | ErrOpen name | ErrShortHeader name | ErrShortBody name => [Perror name]
  | _ => []
  end.

Inductive load_outcome : Type :=
  | Loaded (s : PU)                       (* return 0 *)
  | LoadFailed (e : load_error) (s : PU)  (* message printed, return -1;
                                             [s] is the core as it was left *)
  | LoadAbort.                            (* assert(0 < h.memsize) failed *)

(** The body loop: every [read] stores at the start of the pool and
    returns the number of bytes it got, 0 at the end of the file.  The
    result is the pool as the loop leaves it, and whether it was filled.
    A [read] that does not end the loop delivers at least one byte, so
    [len] iterations are always enough. *)
Fixpoint read_body (fuel : nat) (len : Z) (rest buf : list Z) : list Z * bool :=
  match fuel with
  | O => (buf, bool_decide (len ≤ 0))
  | S fuel =>
      if bool_decide (0 < len) then
        let got := take (Z.to_nat len) rest in
        let n := Z.of_nat (length got) in
        if bool_decide (n ≤ 0) then (buf, false)
        else read_body fuel (len - n) (drop (Z.to_nat n) rest)
                       (got ++ drop (Z.to_nat n) buf)
      else (buf, true)
  end.

(** [malloc] is taken to succeed; [junk] gives the indeterminate bytes
    of the fresh block, cut or padded to its [h.memsize] bytes.  The pool,
    its size and the counter are assigned before the counter is tested and
    the body is read, so a load that fails there leaves them assigned. *)
Definition load_image (s : PU) (filename : option string)
    (fs : gmap string (list Z)) (junk : list Z) : load_outcome :=
  match filename with
  | None => Loaded (mkPU 0 (fr s) (r s) MEM (Z.of_nat (length MEM)))
  | Some name =>
      match fs !! name with
      | None => LoadFailed (ErrOpen name) s
      | Some bytes =>
          if bool_decide (Z.of_nat (length (take 16 bytes)) < sizeof_h)
          then LoadFailed (ErrShortHeader name) s
          else
            let h := header_of_bytes (take 16 bytes) in
            if bool_decide (h_magic h ≠ MAGIC) then LoadFailed (ErrBadMagic (h_magic h)) s
            else if bool_decide (¬ 0 < h_memsize h) then LoadAbort
            else if bool_decide (h_memsize h ≠ MEM_SIZE)
            then LoadFailed (ErrSizeMismatch (h_memsize h)) s
            else
              let buf := take (Z.to_nat (h_memsize h)) (junk ++ replicate (Z.to_nat (h_memsize h)) 0) in
              if bool_decide (h_memsize h ≤ h_pc h)
              then LoadFailed (ErrPcBeyond (h_pc h) (h_memsize h))
                              (mkPU (h_pc h) (fr s) (r s) buf (h_memsize h))
              else
                match read_body (Z.to_nat (h_memsize h)) (h_memsize h) (drop 16 bytes) buf with
                | (mem, false) =>
                    LoadFailed (ErrShortBody name)
                               (mkPU (h_pc h) (fr s) (r s) mem (h_memsize h))
                | (mem, true) => Loaded (mkPU (h_pc h) (fr s) (r s) mem (h_memsize h))
                end
      end
  end.

(** ** [main], after the argument loop has chosen the two file names

    A run ends with an exit status, leaving the core, the files, the
    console and what was written to the standard error stream; or it ends
    in a fault (a failed assertion or an access outside an array), of which
    nothing more is said. *)

Inductive run : Type :=
  | Exited (code : Z) (core : PU) (fs : gmap string (list Z))
           (w : World) (err : list err_event)
  | Aborted (f : fault).

Definition emits (w : World) (es : list out_event) : World :=
  mkWorld (stdin w) (stdout w ++ es) (tty w).

Definition main (fuel : nat) (loadfile savefile : option string)
    (creat : string → bool) (fs : gmap string (list Z)) (junk : list Z)
    (w : World) : option run :=
  match load_image Core1 loadfile fs junk with
  | LoadFailed e s => Some (Exited 1 s fs (emits w (load_stdout e)) (load_stderr e))
  | LoadAbort => Some (Aborted AssertFail)
  | Loaded s =>
      match resume_core fuel s w with
      | None => None
      | Some (Fault f) => Some (Aborted f)
      | Some (Ok (s', w')) =>
          Some (Exited 0 s' (save_image s' savefile creat fs) w'
                       (save_stderr savefile creat fs))
      end
  end.

(** ** The argument loop of [main]

    [args] is [argv] without the program name.  An option that takes a
    file name consumes the following argument whatever it looks like;
    when it is the last argument, the name it reads is the null pointer
    that ends [argv]. *)

Record options : Type := mkOptions {
  loadfile : option string;
  savefile : option string;
  debug : bool
}.

Definition no_options : options := mkOptions None None false.

Fixpoint parse_args (args : list string) (o : options) : options :=
  match args with
  | [] => o
  | arg :: rest =>
      if String.eqb arg "-s" then
        match rest with
        | name :: rest' => parse_args rest' (mkOptions (loadfile o) (Some name) (debug o))
        | [] => mkOptions (loadfile o) None (debug o)
        end
      else if String.eqb arg "-l" then
        match rest with
        | name :: rest' => parse_args rest' (mkOptions (Some name) (savefile o) (debug o))
        | [] => mkOptions None (savefile o) (debug o)
        end
      else if String.eqb arg "-d" then
        parse_args rest (mkOptions (loadfile o) (savefile o) true)
      else
        parse_args rest (mkOptions (Some arg) (savefile o) (debug o))
  end.

(** ** Vocabulary of the statements *)

(** A machine whose pool holds [prog] followed by zeros. *)
Definition image_of (pc0 : Z) (regs prog : list Z) : PU :=
  mkPU pc0 0 regs (prog ++ replicate (128 - length prog) 0) 128.

Definition quiet : World := mkWorld [] [] false.

(** The handler table, entry by entry. *)
Inductive op_view : Z → result (option handler) → Prop :=
  | view_SUS : op_view SUS (Ok (Some (no_io op_SUS)))
  | view_MOV : op_view MOV (Ok (Some (no_io op_MOV)))
  | view_ADD : op_view ADD (Ok (Some (no_io op_ADD)))
  | view_SUB : op_view SUB (Ok (Some (no_io op_SUB)))
  | view_JIF : op_view JIF (Ok (Some (no_io op_JIF)))
  | view_JMR : op_view JMR (Ok (Some (no_io op_JMR)))
  | view_MPC : op_view MPC (Ok (Some (no_io op_MPC)))
  | view_IN : op_view IN (Ok (Some op_IN))
  | view_OUT : op_view OUT (Ok (Some op_OUT))
  | view_AT : op_view AT (Ok (Some (no_io op_AT)))
  | view_ATP : op_view ATP (Ok (Some (no_io op_ATP)))
  | view_null i : 11 ≤ i ≤ 31 → op_view i (Ok None)
  | view_past i : 32 ≤ i → op_view i (Fault (OobOp i)).

(** The width of the registers and of the pool cells. *)
Definition regs_u32 (s : PU) : Prop :=
  length (r s) = 8%nat ∧ Forall (λ v, 0 ≤ v < 2 ^ 32) (r s).

Definition pool_bytes (s : PU) : Prop :=
  Forall (λ b, 0 ≤ b < 256) (pmem s).

Definition wf (s : PU) : Prop := regs_u32 s ∧ pool_bytes s.

(** The states of a run: zero or more iterations of the loop. *)
Inductive reaches : PU → World → PU → World → Prop :=
  | reaches_here s w : reaches s w s w
  | reaches_step s w s1 w1 s2 w2 st :
      reaches s w s1 w1 → step s1 w1 = Ok (s2, w2, st) → reaches s w s2 w2.

(** The conditions under which the image [name] is refused, in the
    order in which [load_image] tests them, each with the error returned. *)
Inductive rejects : option (list Z) → string → load_error → Prop :=
  | rej_open name : rejects None name (ErrOpen name)
  | rej_header bytes name :
      Z.of_nat (length bytes) < sizeof_h →
      rejects (Some bytes) name (ErrShortHeader name)
  | rej_magic bytes name :
      sizeof_h ≤ Z.of_nat (length bytes) →
      h_magic (header_of_bytes (take 16 bytes)) ≠ MAGIC →
      rejects (Some bytes) name
        (ErrBadMagic (h_magic (header_of_bytes (take 16 bytes))))
  | rej_size bytes name :
      sizeof_h ≤ Z.of_nat (length bytes) →
      h_magic (header_of_bytes (take 16 bytes)) = MAGIC →
      0 < h_memsize (header_of_bytes (take 16 bytes)) →
      h_memsize (header_of_bytes (take 16 bytes)) ≠ MEM_SIZE →
      rejects (Some bytes) name
        (ErrSizeMismatch (h_memsize (header_of_bytes (take 16 bytes))))
  | rej_pc bytes name :
      sizeof_h ≤ Z.of_nat (length bytes) →
      h_magic (header_of_bytes (take 16 bytes)) = MAGIC →
      h_memsize (header_of_bytes (take 16 bytes)) = MEM_SIZE →
      MEM_SIZE ≤ h_pc (header_of_bytes (take 16 bytes)) →
      rejects (Some bytes) name
        (ErrPcBeyond (h_pc (header_of_bytes (take 16 bytes)))
                     (h_memsize (header_of_bytes (take 16 bytes))))
  | rej_body bytes name :
      sizeof_h ≤ Z.of_nat (length bytes) →
      h_magic (header_of_bytes (take 16 bytes)) = MAGIC →
      h_memsize (header_of_bytes (take 16 bytes)) = MEM_SIZE →
      h_pc (header_of_bytes (take 16 bytes)) < MEM_SIZE →
      Z.of_nat (length bytes) < sizeof_h + MEM_SIZE →
      rejects (Some bytes) name (ErrShortBody name).

(** An image that passes every test. *)
Definition accepted (file : option (list Z)) : Prop :=
  ∃ bytes, file = Some bytes
    ∧ sizeof_h + MEM_SIZE ≤ Z.of_nat (length bytes)
    ∧ h_magic (header_of_bytes (take 16 bytes)) = MAGIC
    ∧ h_memsize (header_of_bytes (take 16 bytes)) = MEM_SIZE
    ∧ h_pc (header_of_bytes (take 16 bytes)) < MEM_SIZE.

(** Registers as the literal encoding leaves them: 31 bits. *)
Definition regs_u31 (s : PU) : Prop :=
  length (r s) = 8%nat ∧ Forall (λ v, 0 ≤ v < 2 ^ 31) (r s).

Definition wf31 (s : PU) : Prop := regs_u31 s ∧ pool_bytes s.

(** Two machines with arrays of the same sizes. *)
Definition same_shape (s s' : PU) : Prop :=
  length (r s') = length (r s)
  ∧ length (pmem s') = length (pmem s)
  ∧ pmemsize s' = pmemsize s.

(** The number of operand bytes that the handler of an opcode fetches. *)
Definition arity (icode : Z) : Z :=
  if bool_decide (icode = SUS) then 0
  else if bool_decide (icode = JMR ∨ icode = MPC) then 1
  else if bool_decide (1 ≤ icode ≤ 10) then 2
  else 0.

(** The console after some more input and output. *)
Definition io_extends (w w' : World) : Prop :=
  stdout w `prefix_of` stdout w'
  ∧ stdin w' `suffix_of` stdin w
  ∧ tty w' = tty w.

(** What an iteration that returns has done after fetching opcode [i]. *)
Inductive executed : Z → PU → World → PU → World → status → Prop :=
  | ex_SUS s w : executed SUS s w s w HALTED
  | ex_MOV s w s' : op_MOV s = Ok s' → executed MOV s w s' w RUNNING
  | ex_ADD s w s' : op_ADD s = Ok s' → executed ADD s w s' w RUNNING
  | ex_SUB s w s' : op_SUB s = Ok s' → executed SUB s w s' w RUNNING
  | ex_JIF s w s' : op_JIF s = Ok s' → executed JIF s w s' w RUNNING
  | ex_JMR s w s' : op_JMR s = Ok s' → executed JMR s w s' w RUNNING
  | ex_MPC s w s' : op_MPC s = Ok s' → executed MPC s w s' w RUNNING
  | ex_IN s w s' w' : op_IN s w = Ok (s', w') → executed IN s w s' w' RUNNING
  | ex_OUT s w s' w' : op_OUT s w = Ok (s', w') → executed OUT s w s' w' RUNNING
  | ex_AT s w s' : op_AT s = Ok s' → executed AT s w s' w RUNNING
  | ex_ATP s w s' : op_ATP s = Ok s' → executed ATP s w s' w RUNNING
  | ex_null i s w : 11 ≤ i ≤ 31 → executed i s w s w HALTED.

(** The byte [i] places after the counter. *)
Definition peek (s : PU) (i : Z) : option Z := at_index (pmem s) (pc s + i).

(** The flags register after [setcf] and [setzf], as a function of the
    flags register before. *)
Definition alu_flags (f : Z) (c z : bool) : Z :=
  fr (setzf (setcf (mkPU 0 f [] [] 0) c) z).
Arguments alu_flags : simpl never.

(** The machine that [main] starts when no image is named. *)
Definition boot0 : PU := mkPU 0 0 (replicate 8 0) MEM 128.

(** The pool while the boot code copies the kernel [code] to address [k]:
    the boot code itself is intact, cell 124 holds [k], and the first [j]
    bytes of the kernel are in place. *)
Definition boot_mem (k : Z) (code : list Z) (j : nat) (mem : list Z) : Prop :=
  length mem = 128%nat
  ∧ take 51 mem = take 51 MEM
  ∧ mem !! 124%nat = Some k
  ∧ ∀ i c, (i < j)%nat → code !! i = Some c →
      mem !! (Z.to_nat k + i)%nat = Some (c `mod` 256).

(** [n] iterations of the loop, none of which halts: the states that
    [resume_core] passes through. *)
Inductive runs : nat → PU → World → PU → World → Prop :=
  | runs_0 s w : runs 0 s w s w
  | runs_S n s w s1 w1 s2 w2 :
      runs n s w s1 w1 → step s1 w1 = Ok (s2, w2, RUNNING) →
      runs (S n) s w s2 w2.

(** * Properties *)

(** ** Machine integers and the operand encoding *)

Ltac mod_arith := unfold u32, u8 in *; Z.div_mod_to_equations; lia.

Lemma u32_range z : 0 ≤ u32 z < 2 ^ 32.
Proof. mod_arith. Qed.

Lemma u32_small z : 0 ≤ z < 2 ^ 32 → u32 z = z.
Proof. intros. unfold u32. by apply Z.mod_small. Qed.

Lemma u8_range z : 0 ≤ u8 z < 256.
Proof. mod_arith. Qed.

Lemma u8_small z : 0 ≤ z < 256 → u8 z = z.
Proof. intros. unfold u8. by apply Z.mod_small. Qed.

Lemma land_1_mod z : Z.land z 1 = z `mod` 2.
Proof.
  replace (Z.land z 1) with (Z.land z (Z.ones 1)) by reflexivity.
  by rewrite Z.land_ones.
Qed.

Lemma isnum_num_ n : isnum (num_ n) = 1.
Proof. unfold isnum, num_. rewrite land_1_mod. mod_arith. Qed.

Lemma isnum_addr_ p : isnum (addr_ p) = 0.
Proof. unfold isnum, addr_. rewrite land_1_mod. mod_arith. Qed.

Lemma tonum_div e : tonum e = e `div` 2.
Proof. unfold tonum. by rewrite Z.shiftr_div_pow2. Qed.

(** A number survives the literal encoding up to its low 31 bits. *)
Lemma tonum_num_ n : tonum (num_ n) = n `mod` 2 ^ 31.
Proof. rewrite tonum_div. unfold num_. mod_arith. Qed.

Lemma addr_index p : addr_ p `div` 2 = p `mod` 2 ^ 31.
Proof. unfold addr_. mod_arith. Qed.

Lemma tonum_range e : 0 ≤ e < 2 ^ 32 → 0 ≤ tonum e < 2 ^ 31.
Proof. intros. rewrite tonum_div. mod_arith. Qed.

(** ** The error monad *)

Lemma bind_Ok {A B} (m : result A) (k : A → result B) b :
  m ≫= k = Ok b → ∃ a, m = Ok a ∧ k a = Ok b.
Proof. destruct m as [a|e]; simpl; [eauto | discriminate]. Qed.

Lemma bind_Fault {A B} (m : result A) (k : A → result B) e :
  m = Fault e → m ≫= k = Fault e.
Proof. by intros ->. Qed.

(** Peel the binds of a successful computation, one hypothesis at a time. *)
Ltac inv_bind :=
  repeat first
    [ match goal with
      | H : _ ≫= _ = Ok _ |- _ =>
          let a := fresh "a" in
          let Ha := fresh "Ha" in
          apply bind_Ok in H; destruct H as (a & Ha & H);
          repeat match goal with x : (_ * _)%type |- _ => destruct x end;
          simpl in H
      end
    | progress simplify_eq ].

(** ** Flags *)

Lemma setflag_pc s e f : pc (setflag s e f) = pc s.
Proof. by destruct e. Qed.
Lemma setflag_r s e f : r (setflag s e f) = r s.
Proof. by destruct e. Qed.
Lemma setflag_pmem s e f : pmem (setflag s e f) = pmem s.
Proof. by destruct e. Qed.

(** After [setcf] then [setzf] the two low bits of [fr] are exactly the
    two conditions, whatever they were before. *)
Lemma flags_after s c z :
  Z.land (fr (setzf (setcf s c) z)) 3 = Z.b2z z + 2 * Z.b2z c.
Proof.
  assert (Hmask : ∀ a m, Z.land (Z.land a m) 3 = Z.land (Z.land a 3) m).
  { intros a m. by rewrite <-!Z.land_assoc, (Z.land_comm m 3). }
  assert (Hx : Z.land (fr s) 3 = fr s `mod` 4).
  { replace 3 with (Z.ones 2) by reflexivity. by rewrite Z.land_ones. }
  assert (Hr : 0 ≤ fr s `mod` 4 < 4) by (apply Z.mod_pos_bound; lia).
  destruct z, c; simpl;
    rewrite ?Z.land_lor_distr_l, ?Hmask, ?Z.land_lor_distr_l, ?Hmask, Hx;
    assert (Hc : fr s `mod` 4 = 0 ∨ fr s `mod` 4 = 1 ∨ fr s `mod` 4 = 2
               ∨ fr s `mod` 4 = 3) by lia;
    destruct Hc as [-> | [-> | [-> | ->]]]; reflexivity.
Qed.

Lemma isflag_zero_after s c z :
  isflag (setzf (setcf s c) z) FL_ZERO = Z.b2z z.
Proof.
  unfold isflag. replace FL_ZERO with (Z.land 3 1) by reflexivity.
  rewrite Z.land_assoc, flags_after. by destruct z, c.
Qed.

Lemma isflag_carry_after s c z :
  isflag (setzf (setcf s c) z) FL_CARRY = 2 * Z.b2z c.
Proof.
  unfold isflag. replace FL_CARRY with (Z.land 3 2) by reflexivity.
  rewrite Z.land_assoc, flags_after. by destruct z, c.
Qed.

(** ** Cells and resolved-value access *)

Lemma obj_read_num s e : isnum e ≠ 0 → obj_read s e = Ok (tonum e).
Proof. intros. unfold obj_read. by rewrite bool_decide_true. Qed.

Lemma obj_read_ref s e :
  isnum e = 0 → obj_read s e = cell_get s (obj_cell (e `div` 2)).
Proof. intros. unfold obj_read. by rewrite bool_decide_false by lia. Qed.

Lemma obj_write_num s a e : isnum a ≠ 0 → obj_write s a e = Fault AssertFail.
Proof. intros. unfold obj_write. by rewrite bool_decide_true. Qed.

Lemma obj_write_ref s a e :
  isnum a = 0 →
  obj_write s a e = obj_read s e ≫= cell_set s (obj_cell (a `div` 2)).
Proof. intros. unfold obj_write. by rewrite bool_decide_false by lia. Qed.

Lemma cell_get_setflags s c z k :
  cell_get (setzf (setcf s c) z) k = cell_get s k.
Proof. by destruct c, z, k. Qed.

Lemma at_index_Some {A} (a : list A) i x :
  at_index a i = Some x → 0 ≤ i ∧ a !! Z.to_nat i = Some x.
Proof. unfold at_index. case_bool_decide; [done | discriminate]. Qed.

Lemma at_index_insert {A} (a : list A) i x y :
  at_index a i = Some x → at_index (<[Z.to_nat i := y]> a) i = Some y.
Proof.
  intros [Hi Hx]%at_index_Some. unfold at_index.
  rewrite bool_decide_true by done.
  apply list_lookup_insert_eq. by eapply lookup_lt_Some.
Qed.

(** A cell that can be read can be written, and reads back what was
    stored: the full value in a register, its low byte in the pool. *)
Lemma cell_set_ok s k v old :
  cell_get s k = Ok old →
  ∃ s', cell_set s k v = Ok s'
      ∧ cell_get s' k = Ok (match k with InReg _ => v | InMem _ => u8 v end)
      ∧ pc s' = pc s ∧ fr s' = fr s.
Proof.
  destruct k as [i|i]; simpl;
    unfold reg_get, reg_set, mem_get, mem_set;
    destruct (at_index _ i) as [x|] eqn:Hx; try discriminate; intros _;
    eexists; (split; [reflexivity|]); simpl;
    by erewrite at_index_insert.
Qed.

(** ** ADD *)

(** C1 (as amended): the sum is formed in 32-bit [unsigned] arithmetic and
    is never reduced modulo 256 before the flags are computed.  For operands
    [old], [delta] in 0..255 the handler succeeds, a register destination
    receives [old + delta] itself and a pool destination its low byte,
    CARRY is cleared (the 32-bit sum cannot wrap) and ZERO is set exactly
    when [old + delta = 0]. *)
Theorem op_ADD_spec s expr addr s1 s2 old delta :
  fetch s = Ok (expr, s1) →
  fetch s1 = Ok (addr, s2) →
  isnum addr = 0 →
  obj_read s2 addr = Ok old →
  obj_read s2 expr = Ok delta →
  0 ≤ old ≤ 255 → 0 ≤ delta ≤ 255 →
  ∃ s', op_ADD s = Ok s'
      ∧ obj_read s' addr =
          Ok (match obj_cell (addr `div` 2) with
              | InReg _ => old + delta
              | InMem _ => (old + delta) `mod` 256
              end)
      ∧ isflag s' FL_CARRY = 0
      ∧ (isflag s' FL_ZERO ≠ 0 ↔ old + delta = 0)
      ∧ pc s' = pc s2.
Proof.
  intros Hf1 Hf2 Hnum Hold Hdelta Ho Hd.
  unfold op_ADD. rewrite Hf1; simpl. rewrite Hf2; simpl.
  rewrite Hold; simpl. rewrite Hdelta; simpl.
  rewrite (u32_small (old + delta)) by lia.
  set (t := setzf _ _).
  rewrite obj_write_ref, obj_read_num by (rewrite ?isnum_num_; done); simpl.
  rewrite tonum_num_, Z.mod_small by lia.
  rewrite obj_read_ref in Hold by done.
  destruct (cell_set_ok t (obj_cell (addr `div` 2)) (old + delta) old)
    as (s' & Hset & Hget & Hpc & Hfr).
  { subst t. by rewrite cell_get_setflags. }
  exists s'. split; [done|].
  rewrite obj_read_ref by done. split.
  { rewrite Hget. by destruct (obj_cell _). }
  unfold isflag. rewrite Hfr. fold (isflag t FL_CARRY) (isflag t FL_ZERO).
  subst t. rewrite isflag_carry_after, isflag_zero_after, Hpc.
  unfold setzf, setcf; rewrite !setflag_pc.
  split; [by rewrite bool_decide_false by lia|].
  split; [|done].
  destruct (bool_decide_reflect (old + delta = 0)); simpl; lia.
Qed.

Lemma op_ADD_spec_witness :
  ∃ s', op_ADD (image_of 1 [7; 0; 0; 0; 0; 0; 0; 0] [ADD; num_ 5; R0]) = Ok s'
      ∧ obj_read s' R0 = Ok 12
      ∧ isflag s' FL_CARRY = 0
      ∧ (isflag s' FL_ZERO ≠ 0 ↔ 7 + 5 = 0)
      ∧ pc s' = 3.
Proof.
  set (s := image_of 1 [7; 0; 0; 0; 0; 0; 0; 0] [ADD; num_ 5; R0]).
  apply (op_ADD_spec s (num_ 5) R0 (set_pc s 2) (set_pc s 3) 7 5);
    first [reflexivity | lia].
Defined.

(** C1 (as stated) fails: 200 + 100 lands in register 0 as 300, not as
    44, and CARRY stays clear although the sum is at least 256. *)
Lemma op_ADD_register_not_reduced :
  ∃ s', step (image_of 0 [200; 0; 0; 0; 0; 0; 0; 0] [ADD; num_ 100; R0]) quiet
          = Ok (s', quiet, RUNNING)
      ∧ obj_read (image_of 0 [200; 0; 0; 0; 0; 0; 0; 0] [ADD; num_ 100; R0]) R0
          = Ok 200
      ∧ obj_read s' R0 = Ok 300
      ∧ 300 ≠ (200 + 100) `mod` 256
      ∧ isflag s' FL_CARRY = 0
      ∧ 256 ≤ 200 + 100.
Proof.
  eexists. split; [vm_compute; reflexivity|].
  split; [reflexivity|]. split; [reflexivity|].
  split; [by vm_compute|]. split; [reflexivity | lia].
Qed.

(** ** SUB *)

(** C4 (as amended): the difference is formed in 32-bit arithmetic.  For
    operands in 0..255 CARRY is set exactly when [delta > old] and ZERO
    exactly when the difference is 0 modulo 256; a pool destination receives
    [(old - delta) mod 256]; a register destination receives the 32-bit
    difference cut to the 31 bits that the literal encoding carries, whose
    low byte is [(old - delta) mod 256]. *)
Theorem op_SUB_spec s expr addr s1 s2 old delta :
  fetch s = Ok (expr, s1) →
  fetch s1 = Ok (addr, s2) →
  isnum addr = 0 →
  obj_read s2 addr = Ok old →
  obj_read s2 expr = Ok delta →
  0 ≤ old ≤ 255 → 0 ≤ delta ≤ 255 →
  ∃ s' v, op_SUB s = Ok s'
      ∧ obj_read s' addr = Ok v
      ∧ v = match obj_cell (addr `div` 2) with
            | InReg _ => (old - delta) `mod` 2 ^ 31
            | InMem _ => (old - delta) `mod` 256
            end
      ∧ v `mod` 256 = (old - delta) `mod` 256
      ∧ (isflag s' FL_CARRY ≠ 0 ↔ delta > old)
      ∧ (isflag s' FL_ZERO ≠ 0 ↔ (old - delta) `mod` 256 = 0).
Proof.
  intros Hf1 Hf2 Hnum Hold Hdelta Ho Hd.
  unfold op_SUB. rewrite Hf1; simpl. rewrite Hf2; simpl.
  rewrite Hold; simpl. rewrite Hdelta; simpl.
  set (new := u32 (old - delta)).
  assert (Hnew : new = if bool_decide (delta ≤ old) then old - delta
                       else 2 ^ 32 + old - delta).
  { subst new. case_bool_decide; mod_arith. }
  set (t := setzf _ _).
  rewrite obj_write_ref, obj_read_num by (rewrite ?isnum_num_; done); simpl.
  rewrite tonum_num_.
  rewrite obj_read_ref in Hold by done.
  destruct (cell_set_ok t (obj_cell (addr `div` 2)) (new `mod` 2 ^ 31) old)
    as (s' & Hset & Hget & Hpc & Hfr).
  { subst t. by rewrite cell_get_setflags. }
  exists s'. eexists. split; [done|].
  rewrite obj_read_ref by done. split; [exact Hget|].
  unfold isflag. rewrite Hfr. fold (isflag t FL_CARRY) (isflag t FL_ZERO).
  subst t. rewrite isflag_carry_after, isflag_zero_after.
  clear Hset Hget Hpc Hfr Hold Hdelta Hf1 Hf2.
  assert (H31 : new `mod` 2 ^ 31 = (old - delta) `mod` 2 ^ 31).
  { subst new. mod_arith. }
  split; [|split; [|split]].
  - rewrite H31. destruct (obj_cell _); [done|]. mod_arith.
  - rewrite H31. destruct (obj_cell _); mod_arith.
  - destruct (bool_decide_reflect (new > old)) as [H|H]; simpl;
      revert Hnew H; case_bool_decide; lia.
  - destruct (bool_decide_reflect (new = 0)) as [H|H]; simpl;
      revert Hnew H; case_bool_decide; intros; mod_arith.
Qed.

Lemma op_SUB_spec_witness :
  ∃ s' v, op_SUB (image_of 1 [3; 0; 0; 0; 0; 0; 0; 0] [SUB; num_ 5; R0]) = Ok s'
      ∧ obj_read s' R0 = Ok v
      ∧ v = (3 - 5) `mod` 2 ^ 31
      ∧ v `mod` 256 = (3 - 5) `mod` 256
      ∧ (isflag s' FL_CARRY ≠ 0 ↔ 5 > 3)
      ∧ (isflag s' FL_ZERO ≠ 0 ↔ (3 - 5) `mod` 256 = 0).
Proof.
  set (s := image_of 1 [3; 0; 0; 0; 0; 0; 0; 0] [SUB; num_ 5; R0]).
  apply (op_SUB_spec s (num_ 5) R0 (set_pc s 2) (set_pc s 3) 3 5);
    first [reflexivity | lia].
Defined.

(** C4 (as stated) fails in its concrete scenario: with 3 in register 0,
    [SUB literal(5), reg(0)] leaves 2147483646 there, not 254; CARRY is
    set and ZERO clear as the claim says. *)
Lemma op_SUB_scenario_register :
  ∃ s', step (image_of 0 [3; 0; 0; 0; 0; 0; 0; 0] [SUB; num_ 5; R0]) quiet
          = Ok (s', quiet, RUNNING)
      ∧ r s' !! 0%nat = Some 2147483646
      ∧ 2147483646 ≠ 254
      ∧ isflag s' FL_CARRY = FL_CARRY
      ∧ isflag s' FL_ZERO = 0.
Proof.
  eexists. split; [vm_compute; reflexivity|].
  split; [reflexivity|]. split; [lia|]. split; reflexivity.
Qed.

(** ** AT *)

(** C5 (as amended): AT reads the number [n] held in the cell that its
    first operand names, re-encodes it as the reference [addr_ n] and hands
    that to [obj_write], which resolves it again.  The destination
    therefore ends up with the value stored at index [n] (its low byte when
    the destination is in the pool), not with the encoded address. *)
Theorem op_AT_spec s ixreg addr s1 s2 n v old :
  fetch s = Ok (ixreg, s1) →
  fetch s1 = Ok (addr, s2) →
  isnum ixreg = 0 →
  isnum addr = 0 →
  obj_read s2 ixreg = Ok n →
  0 ≤ n < 2 ^ 31 →
  cell_get s2 (obj_cell n) = Ok v →
  cell_get s2 (obj_cell (addr `div` 2)) = Ok old →
  ∃ s', op_AT s = Ok s'
      ∧ obj_read s' addr =
          Ok (match obj_cell (addr `div` 2) with
              | InReg _ => v
              | InMem _ => u8 v
              end).
Proof.
  intros Hf1 Hf2 Hix Haddr Hn Hrange Hv Hold.
  unfold op_AT. rewrite Hf1; simpl. rewrite Hf2; simpl.
  rewrite !bool_decide_false by lia.
  rewrite Hn; simpl.
  rewrite obj_write_ref by done.
  rewrite obj_read_ref by apply isnum_addr_.
  rewrite addr_index, Z.mod_small, Hv by done; simpl.
  destruct (cell_set_ok s2 (obj_cell (addr `div` 2)) v old Hold)
    as (s' & Hset & Hget & _).
  exists s'. split; [done|]. by rewrite obj_read_ref.
Qed.

Lemma op_AT_spec_witness :
  ∃ s', op_AT (image_of 1 [0; 0; 0; 5; 0; 9; 0; 0] [AT; R3; R0]) = Ok s'
      ∧ obj_read s' R0 = Ok 9.
Proof.
  set (s := image_of 1 [0; 0; 0; 5; 0; 9; 0; 0] [AT; R3; R0]).
  apply (op_AT_spec s R3 R0 (set_pc s 2) (set_pc s 3) 5 9 0);
    first [reflexivity | lia].
Defined.

(** C5 (as stated) fails: register 1 holds 20 and pool cell 20 holds 77;
    after [AT reg(1), reg(0)] register 0 holds 77, the value stored at
    index 20, and not the encoded address [addr_ 20 = 40]. *)
Lemma op_AT_loads_indirect :
  let s := image_of 0 [0; 20; 0; 0; 0; 0; 0; 0]
             ([AT; R1; R0] ++ replicate 17 0 ++ [77]) in
  ∃ s', step s quiet = Ok (s', quiet, RUNNING)
      ∧ obj_read s R1 = Ok 20
      ∧ pmem s !! 20%nat = Some 77
      ∧ r s' !! 0%nat = Some 77
      ∧ addr_ 20 = 40.
Proof.
  eexists. split; [vm_compute; reflexivity|].
  repeat split; reflexivity.
Qed.

(** ** The register guard *)

(** C3 (the code departs from it): the guard [expr < 16] sends the indices
    8..15 to the register array, which has 8 slots; the access is past its
    end. *)
Theorem obj_cell_past_registers s idx :
  length (r s) = 8%nat →
  8 ≤ idx < 16 →
  obj_cell idx = InReg idx
  ∧ obj_read s (addr_ idx) = Fault (OobReg idx)
  ∧ (∀ e v, obj_read s e = Ok v → obj_write s (addr_ idx) e = Fault (OobReg idx)).
Proof.
  intros Hlen Hidx.
  assert (Hcell : obj_cell idx = InReg idx).
  { unfold obj_cell. by rewrite bool_decide_true by lia. }
  assert (Hat : at_index (r s) idx = None).
  { unfold at_index. rewrite bool_decide_true by lia.
    apply lookup_ge_None. lia. }
  split; [done|]. split.
  - rewrite obj_read_ref by apply isnum_addr_.
    rewrite addr_index, Z.mod_small, Hcell by lia. simpl.
    unfold reg_get. by rewrite Hat.
  - intros e v He. rewrite obj_write_ref by apply isnum_addr_.
    rewrite He; simpl.
    rewrite addr_index, Z.mod_small, Hcell by lia. simpl.
    unfold reg_set. by rewrite Hat.
Qed.

Lemma obj_cell_past_registers_witness :
  obj_cell 8 = InReg 8
  ∧ obj_read Core1 (addr_ 8) = Fault (OobReg 8)
  ∧ (∀ e v, obj_read Core1 e = Ok v → obj_write Core1 (addr_ 8) e = Fault (OobReg 8)).
Proof. apply (obj_cell_past_registers Core1 8); [reflexivity | lia]. Defined.

(** Indices 0..7 reach a register and indices from 16 on the pool. *)
Lemma obj_cell_register idx : 0 ≤ idx < 8 → obj_cell idx = InReg idx.
Proof. intros. unfold obj_cell. by rewrite bool_decide_true by lia. Qed.

Lemma obj_cell_pool idx : 16 ≤ idx → obj_cell idx = InMem idx.
Proof. intros. unfold obj_cell. by rewrite bool_decide_false by lia. Qed.

(** ** Opcodes without a handler *)

Lemma op_null icode : 11 ≤ icode ≤ 31 → op icode = Ok None.
Proof.
  intros H. unfold op. rewrite bool_decide_true by lia.
  destruct icode as [|p|p]; try lia.
  do 5 (destruct p as [p|p|]; try lia; try reflexivity).
Qed.

Lemma op_past_table icode : 32 ≤ icode → op icode = Fault (OobOp icode).
Proof. intros. unfold op. by rewrite bool_decide_false by lia. Qed.

(** An opcode byte in 11..31 finds a null entry: the loop halts and only
    [pc] has moved. *)
Lemma step_null_handler s w b s1 :
  fetch s = Ok (b, s1) → 11 ≤ b ≤ 31 → step s w = Ok (s1, w, HALTED).
Proof.
  intros Hf Hb. unfold step. rewrite Hf; simpl.
  rewrite u8_small by lia. by rewrite op_null.
Qed.

(** C6 (the code departs from it): an opcode byte in 32..255 has no
    handler either, but the lookup [op[icode]] is then past the end of the
    32-entry table instead of finding a null entry. *)
Theorem step_opcode_past_table s w b s1 :
  fetch s = Ok (b, s1) → 32 ≤ b ≤ 255 → step s w = Fault (OobOp b).
Proof.
  intros Hf Hb. unfold step. rewrite Hf; simpl.
  rewrite u8_small by lia. by rewrite op_past_table by lia.
Qed.

Lemma step_opcode_past_table_witness :
  step (image_of 0 (replicate 8 0) [32]) quiet = Fault (OobOp 32).
Proof.
  set (s := image_of 0 (replicate 8 0) [32]).
  apply (step_opcode_past_table s quiet 32 (set_pc s 1)); [reflexivity | lia].
Defined.

(** ** The handler table, case by case *)

Lemma op_viewP icode : 0 ≤ icode → op_view icode (op icode).
Proof.
  intros H0.
  destruct (decide (icode ≤ 10)) as [Hlow|Hhigh].
  - assert (Hc : icode = 0 ∨ icode = 1 ∨ icode = 2 ∨ icode = 3 ∨ icode = 4
               ∨ icode = 5 ∨ icode = 6 ∨ icode = 7 ∨ icode = 8 ∨ icode = 9
               ∨ icode = 10) by lia.
    repeat destruct Hc as [-> | Hc]; try subst icode; constructor.
  - destruct (decide (icode ≤ 31)).
    + rewrite op_null by lia. constructor; lia.
    + rewrite op_past_table by lia. constructor; lia.
Qed.

(** ** What the access functions leave alone *)

Lemma fetch_fr s b s' : fetch s = Ok (b, s') → fr s' = fr s.
Proof. unfold fetch. intros H. inv_bind. done. Qed.

Lemma fetch_r s b s' : fetch s = Ok (b, s') → r s' = r s.
Proof. unfold fetch. intros H. inv_bind. done. Qed.

Lemma fetch_pmem s b s' : fetch s = Ok (b, s') → pmem s' = pmem s.
Proof. unfold fetch. intros H. inv_bind. done. Qed.

Lemma fetch_byte s b s' :
  fetch s = Ok (b, s') → pmem s !! Z.to_nat (pc s) = Some b.
Proof.
  unfold fetch, mem_get. intros H. inv_bind.
  destruct (at_index _ _) as [x|] eqn:Hx; [|discriminate].
  apply at_index_Some in Hx as [_ Hx]. congruence.
Qed.

Lemma cell_set_fr s k v s' : cell_set s k v = Ok s' → fr s' = fr s.
Proof.
  destruct k; simpl; unfold reg_set, mem_set;
    destruct (at_index _ _); intros H; inv_bind; done.
Qed.

Lemma obj_write_fr s a e s' : obj_write s a e = Ok s' → fr s' = fr s.
Proof.
  unfold obj_write. case_bool_decide; [discriminate|].
  intros Hw. inv_bind. by eapply cell_set_fr.
Qed.

Lemma fetch_set_fr s f b s' :
  fetch s = Ok (b, s') → fetch (set_fr s f) = Ok (b, set_fr s' f).
Proof.
  unfold fetch, mem_get; simpl.
  destruct (at_index _ _); intros H; inv_bind; done.
Qed.

Lemma obj_read_set_fr s f e : obj_read (set_fr s f) e = obj_read s e.
Proof. unfold obj_read. case_bool_decide; [done|]. by destruct (obj_cell _). Qed.

Lemma cell_set_set_fr s f k v s' :
  cell_set s k v = Ok s' → cell_set (set_fr s f) k v = Ok (set_fr s' f).
Proof.
  destruct k; simpl; unfold reg_set, mem_set; simpl;
    destruct (at_index _ _); intros H; inv_bind; done.
Qed.

Lemma obj_write_set_fr s f a e s' :
  obj_write s a e = Ok s' → obj_write (set_fr s f) a e = Ok (set_fr s' f).
Proof.
  unfold obj_write. case_bool_decide; [discriminate|].
  rewrite obj_read_set_fr. intros Hw. inv_bind.
  rewrite Ha; simpl. by apply cell_set_set_fr.
Qed.

Lemma setflags_set_fr s f c z :
  setzf (setcf (set_fr s f) c) z
  = set_fr (setzf (setcf s c) z) (fr (setzf (setcf (set_fr s f) c) z)).
Proof. by destruct c, z. Qed.

(** Peel the fetches and the assertion tests of a handler that returned. *)
Ltac inv_handler H :=
  simpl in H; inv_bind;
  repeat (case_bool_decide; try discriminate); inv_bind.

Ltac frame_fr :=
  repeat match goal with
  | H : fetch _ = Ok _ |- _ => apply fetch_fr in H
  | H : obj_write _ _ _ = Ok _ |- _ => apply obj_write_fr in H
  end; simpl in *; congruence.

Lemma op_MOV_fr s s' : op_MOV s = Ok s' → fr s' = fr s.
Proof. unfold op_MOV. intros H. inv_handler H. frame_fr. Qed.

Lemma op_ATP_fr s s' : op_ATP s = Ok s' → fr s' = fr s.
Proof. unfold op_ATP. intros H. inv_handler H. frame_fr. Qed.

Lemma op_AT_fr s s' : op_AT s = Ok s' → fr s' = fr s.
Proof. unfold op_AT. intros H. inv_handler H. frame_fr. Qed.

Lemma op_JIF_fr s s' : op_JIF s = Ok s' → fr s' = fr s.
Proof. unfold op_JIF. intros H. inv_handler H; frame_fr. Qed.

Lemma op_JMR_fr s s' : op_JMR s = Ok s' → fr s' = fr s.
Proof. unfold op_JMR. intros H. inv_handler H. frame_fr. Qed.

Lemma op_MPC_fr s s' : op_MPC s = Ok s' → fr s' = fr s.
Proof. unfold op_MPC. intros H. inv_handler H. frame_fr. Qed.

Lemma op_IN_fr s w s' w' : op_IN s w = Ok (s', w') → fr s' = fr s.
Proof.
  unfold op_IN. intros H. inv_bind.
  destruct (getinp _ _). inv_handler H. frame_fr.
Qed.

Lemma op_OUT_fr s w s' w' : op_OUT s w = Ok (s', w') → fr s' = fr s.
Proof. unfold op_OUT. intros H. inv_handler H. frame_fr. Qed.

(** ** Flags are written by ADD and SUB only *)

Lemma op_ADD_flags s s' :
  op_ADD s = Ok s' →
  ∃ z c : bool, ∀ f, ∃ s'',
    op_ADD (set_fr s f) = Ok s'' ∧ Z.land (fr s'') 3 = Z.b2z z + 2 * Z.b2z c.
Proof.
  unfold op_ADD. intros H. inv_bind.
  match type of H with
  | obj_write (setzf (setcf _ ?c) ?z) _ _ = _ => exists z, c
  end.
  intros f.
  erewrite fetch_set_fr by eassumption; simpl.
  erewrite fetch_set_fr by eassumption; simpl.
  rewrite !obj_read_set_fr, Ha1; simpl. rewrite Ha2; simpl.
  rewrite setflags_set_fr.
  eexists. split; [by apply obj_write_set_fr|].
  simpl. apply flags_after.
Qed.

Lemma op_SUB_flags s s' :
  op_SUB s = Ok s' →
  ∃ z c : bool, ∀ f, ∃ s'',
    op_SUB (set_fr s f) = Ok s'' ∧ Z.land (fr s'') 3 = Z.b2z z + 2 * Z.b2z c.
Proof.
  unfold op_SUB. intros H. inv_bind.
  match type of H with
  | obj_write (setzf (setcf _ ?c) ?z) _ _ = _ => exists z, c
  end.
  intros f.
  erewrite fetch_set_fr by eassumption; simpl.
  erewrite fetch_set_fr by eassumption; simpl.
  rewrite !obj_read_set_fr, Ha1; simpl. rewrite Ha2; simpl.
  rewrite setflags_set_fr.
  eexists. split; [by apply obj_write_set_fr|].
  simpl. apply flags_after.
Qed.

(** C10: one iteration of the loop that runs ADD or SUB leaves ZERO and
    CARRY at values [z] and [c] that do not depend on the flags register
    it started from: both bits are overwritten, not merged.  An iteration
    that runs any other opcode returns with the flags register unchanged. *)
Theorem step_flags s w icode s1 s' w' st :
  fetch s = Ok (icode, s1) →
  0 ≤ icode ≤ 255 →
  step s w = Ok (s', w', st) →
  if bool_decide (icode = ADD ∨ icode = SUB) then
    ∃ z c : bool, ∀ f, ∃ s'',
      step (set_fr s f) w = Ok (s'', w', st)
      ∧ Z.land (fr s'') (FL_ZERO + FL_CARRY) = Z.b2z z * FL_ZERO + Z.b2z c * FL_CARRY
  else fr s' = fr s.
Proof.
  intros Hf Hb Hstep.
  pose proof (fetch_fr _ _ _ Hf) as Hfr1.
  assert (Hstep' : ∀ f, step (set_fr s f) w =
            (h ← op icode;
             match h with
             | Some g => '(s, w) ← g (set_fr s1 f) w;
                 Ok (s, w, if bool_decide (icode ≠ SUS) then RUNNING else HALTED)
             | None => Ok (set_fr s1 f, w, HALTED)
             end)).
  { intros f. unfold step. erewrite fetch_set_fr by eassumption; simpl.
    by rewrite u8_small by lia. }
  unfold step in Hstep. rewrite Hf in Hstep; simpl in Hstep.
  rewrite u8_small in Hstep by lia.
  destruct (op_viewP icode) as [| | | | | | | | | | | i Hi | i Hi]; [lia|..];
    simpl in Hstep; rewrite ?bool_decide_false by (unfold ADD, SUB; lia);
    try (unfold no_io in Hstep; inv_bind).
  - (* SUS *) unfold op_SUS in *. by simplify_eq.
  - (* MOV *) rewrite <-Hfr1. by eapply op_MOV_fr.
  - (* ADD *)
    rewrite bool_decide_true by (by left).
    match goal with H : op_ADD _ = Ok _ |- _ =>
      destruct (op_ADD_flags _ _ H) as (z & c & Hall) end.
    exists z, c. intros f. destruct (Hall f) as (s'' & Hadd & Hbits).
    exists s''. rewrite Hstep'. simpl. unfold no_io. rewrite Hadd. simpl.
    split; [done|]. change (FL_ZERO + FL_CARRY) with 3.
    rewrite Hbits. unfold FL_ZERO, FL_CARRY. lia.
  - (* SUB *)
    rewrite bool_decide_true by (by right).
    match goal with H : op_SUB _ = Ok _ |- _ =>
      destruct (op_SUB_flags _ _ H) as (z & c & Hall) end.
    exists z, c. intros f. destruct (Hall f) as (s'' & Hsub & Hbits).
    exists s''. rewrite Hstep'. simpl. unfold no_io. rewrite Hsub. simpl.
    split; [done|]. change (FL_ZERO + FL_CARRY) with 3.
    rewrite Hbits. unfold FL_ZERO, FL_CARRY. lia.
  - (* JIF *) rewrite <-Hfr1. by eapply op_JIF_fr.
  - (* JMR *) rewrite <-Hfr1. by eapply op_JMR_fr.
  - (* MPC *) rewrite <-Hfr1. by eapply op_MPC_fr.
  - (* IN *) rewrite <-Hfr1. by eapply op_IN_fr.
  - (* OUT *) rewrite <-Hfr1. by eapply op_OUT_fr.
  - (* AT *) rewrite <-Hfr1. by eapply op_AT_fr.
  - (* ATP *) rewrite <-Hfr1. by eapply op_ATP_fr.
  - (* null entry *) by simplify_eq.
Qed.

Lemma step_flags_witness :
  let s := image_of 0 [7; 0; 0; 0; 0; 0; 0; 0] [ADD; num_ 5; R0] in
  let t := image_of 0 [7; 0; 0; 0; 0; 0; 0; 0] [MOV; num_ 5; R0] in
  (∃ z c : bool, ∀ f, ∃ s'',
      step (set_fr s f) quiet = Ok (s'', quiet, RUNNING)
      ∧ Z.land (fr s'') (FL_ZERO + FL_CARRY) = Z.b2z z * FL_ZERO + Z.b2z c * FL_CARRY)
  ∧ fr (mkPU 3 0 [5; 0; 0; 0; 0; 0; 0; 0] (pmem t) 128) = fr t.
Proof.
  intros s t. split.
  - apply (step_flags s quiet ADD (set_pc s 1)
             (mkPU 3 0 [12; 0; 0; 0; 0; 0; 0; 0] (pmem s) 128) quiet RUNNING);
      first [reflexivity | unfold ADD; lia].
  - apply (step_flags t quiet MOV (set_pc t 1)
             (mkPU 3 0 [5; 0; 0; 0; 0; 0; 0; 0] (pmem t) 128) quiet RUNNING);
      first [reflexivity | unfold MOV; lia].
Defined.

(** ** The width of the registers *)

Lemma resume_core_reaches fuel s w s' w' :
  resume_core fuel s w = Some (Ok (s', w')) → reaches s w s' w'.
Proof.
  assert (Hgen : ∀ s0 w0, reaches s0 w0 s w →
            resume_core fuel s w = Some (Ok (s', w')) → reaches s0 w0 s' w').
  { revert s w. induction fuel as [|fuel IH]; intros s w s0 w0 Hr; [discriminate|].
    simpl. destruct (step s w) as [[[s1 w1] st]|e] eqn:Hstep; [|discriminate].
    destruct st.
    - apply IH. by eapply reaches_step.
    - intros ?; simplify_eq. by eapply reaches_step. }
  apply Hgen. constructor.
Qed.

Lemma wf_set_pc s v : wf s → wf (set_pc s v).
Proof. done. Qed.

Lemma wf_setflag s e f : wf s → wf (setflag s e f).
Proof. by destruct e. Qed.

Lemma fetch_wf s b s' : wf s → fetch s = Ok (b, s') → wf s' ∧ 0 ≤ b < 256.
Proof.
  intros Hwf Hf. split.
  - unfold wf, regs_u32, pool_bytes.
    by rewrite (fetch_r _ _ _ Hf), (fetch_pmem _ _ _ Hf).
  - destruct Hwf as [_ Hp]. apply fetch_byte in Hf.
    by apply (Forall_lookup_1 _ _ _ _ Hp Hf).
Qed.

Lemma cell_get_range s k v : wf s → cell_get s k = Ok v → 0 ≤ v < 2 ^ 32.
Proof.
  intros [[_ Hr] Hp]. destruct k as [i|i]; simpl;
    unfold reg_get, mem_get; destruct (at_index _ i) as [x|] eqn:Hx;
    intros ?; simplify_eq; apply at_index_Some in Hx as [_ Hx].
  - by apply (Forall_lookup_1 _ _ _ _ Hr Hx).
  - pose proof (Forall_lookup_1 _ _ _ _ Hp Hx) as Hb. simpl in Hb. lia.
Qed.

Lemma obj_read_range s e v :
  wf s → 0 ≤ e < 2 ^ 32 → obj_read s e = Ok v → 0 ≤ v < 2 ^ 32.
Proof.
  intros Hwf He. unfold obj_read. case_bool_decide.
  - intros ?; simplify_eq. pose proof (tonum_range e He). lia.
  - by apply cell_get_range.
Qed.

Lemma cell_set_wf s k v s' :
  wf s → 0 ≤ v < 2 ^ 32 → cell_set s k v = Ok s' → wf s'.
Proof.
  intros [[Hlen Hr] Hp] Hv. destruct k as [i|i]; simpl;
    unfold reg_set, mem_set; destruct (at_index _ i);
    intros ?; simplify_eq; (split; [split|]); simpl; try done.
  - by rewrite length_insert.
  - by apply Forall_insert.
  - apply Forall_insert; [done|]. apply u8_range.
Qed.

Lemma obj_write_wf s a e s' :
  wf s → 0 ≤ e < 2 ^ 32 → obj_write s a e = Ok s' → wf s'.
Proof.
  intros Hwf He. unfold obj_write. case_bool_decide; [discriminate|].
  intros Hw. inv_bind. eapply cell_set_wf; [done| |done].
  by eapply obj_read_range.
Qed.

Lemma num_range n : 0 ≤ num_ n < 2 ^ 32.
Proof. apply u32_range. Qed.

Lemma addr_range p : 0 ≤ addr_ p < 2 ^ 32.
Proof. apply u32_range. Qed.

(** Follow the invariant through the fetches of a handler. *)
Ltac wf_fetches :=
  repeat match goal with
  | Hwf : wf ?s, H : fetch ?s = Ok (_, _) |- _ =>
      destruct (fetch_wf _ _ _ Hwf H); clear H
  end.

Ltac wf_write :=
  match goal with
  | H : obj_write _ _ _ = Ok _ |- _ =>
      eapply obj_write_wf; [| |exact H];
      [repeat apply wf_setflag; assumption
      |first [apply num_range | apply addr_range | lia]]
  end.

Lemma op_MOV_wf s s' : wf s → op_MOV s = Ok s' → wf s'.
Proof. unfold op_MOV. intros Hwf H. inv_handler H; wf_fetches; wf_write. Qed.

Lemma op_ATP_wf s s' : wf s → op_ATP s = Ok s' → wf s'.
Proof. unfold op_ATP. intros Hwf H. inv_handler H; wf_fetches; wf_write. Qed.

Lemma op_AT_wf s s' : wf s → op_AT s = Ok s' → wf s'.
Proof. unfold op_AT. intros Hwf H. inv_handler H; wf_fetches; wf_write. Qed.

Lemma op_ADD_wf s s' : wf s → op_ADD s = Ok s' → wf s'.
Proof. unfold op_ADD. intros Hwf H. inv_handler H; wf_fetches; wf_write. Qed.

Lemma op_SUB_wf s s' : wf s → op_SUB s = Ok s' → wf s'.
Proof. unfold op_SUB. intros Hwf H. inv_handler H; wf_fetches; wf_write. Qed.

Lemma op_JIF_wf s s' : wf s → op_JIF s = Ok s' → wf s'.
Proof.
  unfold op_JIF. intros Hwf H. inv_handler H; wf_fetches;
    try apply wf_set_pc; assumption.
Qed.

Lemma op_JMR_wf s s' : wf s → op_JMR s = Ok s' → wf s'.
Proof.
  unfold op_JMR. intros Hwf H. inv_handler H. wf_fetches.
  by apply wf_set_pc.
Qed.

Lemma op_MPC_wf s s' : wf s → op_MPC s = Ok s' → wf s'.
Proof. unfold op_MPC. intros Hwf H. inv_handler H; wf_fetches; wf_write. Qed.

Lemma op_IN_wf s w s' w' : wf s → op_IN s w = Ok (s', w') → wf s'.
Proof.
  unfold op_IN. intros Hwf H. inv_bind.
  destruct (getinp _ _). inv_handler H; wf_fetches; wf_write.
Qed.

Lemma op_OUT_wf s w s' w' : wf s → op_OUT s w = Ok (s', w') → wf s'.
Proof.
  unfold op_OUT. intros Hwf H. inv_handler H. wf_fetches. assumption.
Qed.

Lemma step_wf s w s' w' st : wf s → step s w = Ok (s', w', st) → wf s'.
Proof.
  intros Hwf Hstep. unfold step in Hstep. inv_bind.
  wf_fetches.
  match goal with Ho : op _ = Ok ?h |- _ => destruct h as [g|] end;
    [|by simplify_eq].
  inv_bind.
  match goal with Ho : op ?i = Ok _ |- _ =>
    pose proof (op_viewP i ltac:(pose proof (u8_range z); lia)) as Hv;
    rewrite Ho in Hv; clear Ho
  end.
  inversion Hv; subst; unfold no_io, op_SUS in *; inv_bind;
    eauto using op_MOV_wf, op_ATP_wf, op_AT_wf, op_ADD_wf, op_SUB_wf,
      op_JIF_wf, op_JMR_wf, op_MPC_wf, op_IN_wf, op_OUT_wf.
Qed.

(** C2 (as amended): the registers are C [unsigned] slots.  Through every
    state of a run there are 8 of them and each holds a value in
    0..2^32-1 (and every pool cell a byte); nothing narrows a value written
    to a register to one byte. *)
Theorem registers_stay_u32 s w s' w' :
  regs_u32 s → pool_bytes s → reaches s w s' w' → regs_u32 s' ∧ pool_bytes s'.
Proof.
  intros Hr Hp Hrun. change (wf s'). assert (Hwf : wf s) by done.
  clear Hr Hp. induction Hrun as [|s w s1 w1 s2 w2 st _ IH Hstep]; [done|].
  eapply step_wf; [|exact Hstep]. by apply IH.
Qed.

Lemma registers_stay_u32_witness :
  let s := mkPU 0 0 (replicate 8 0) MEM 128 in
  let s' := mkPU 3 0 [0; 1000; 0; 0; 0; 0; 0; 0] MEM 128 in
  regs_u32 s' ∧ pool_bytes s'.
Proof.
  intros s s'.
  apply (registers_stay_u32 s (mkWorld [1000] [] false) s' quiet).
  - split; [reflexivity|]. by apply (bool_decide_unpack _).
  - by apply (bool_decide_unpack _).
  - eapply reaches_step; [apply reaches_here | reflexivity].
Defined.

(** C2 (as stated) fails: the first instruction of the built-in image is
    [IN IO_NUM, R1]; when 1000 is typed, register 1 holds 1000. *)
Lemma register_wider_than_byte :
  ∃ s0 s1 w1,
    load_image Core1 None ∅ [] = Loaded s0
    ∧ step s0 (mkWorld [1000] [] false) = Ok (s1, w1, RUNNING)
    ∧ r s1 !! 1%nat = Some 1000
    ∧ ¬ (0 ≤ 1000 ≤ 255).
Proof.
  do 3 eexists. split; [reflexivity|].
  split; [vm_compute; reflexivity|]. split; [reflexivity | lia].
Qed.

(** ** Literal destinations *)

Lemma op_MOV_literal s e s1 a s2 :
  fetch s = Ok (e, s1) → fetch s1 = Ok (a, s2) → isnum a ≠ 0 →
  op_MOV s = Fault AssertFail.
Proof.
  intros H1 H2 Ha. unfold op_MOV. rewrite H1; simpl. rewrite H2; simpl.
  by apply obj_write_num.
Qed.

Lemma op_ATP_literal s e s1 a s2 :
  fetch s = Ok (e, s1) → fetch s1 = Ok (a, s2) → isnum a ≠ 0 →
  op_ATP s = Fault AssertFail.
Proof.
  intros H1 H2 Ha. unfold op_ATP. rewrite H1; simpl. rewrite H2; simpl.
  by rewrite bool_decide_true.
Qed.

Lemma op_AT_literal s e s1 a s2 :
  fetch s = Ok (e, s1) → fetch s1 = Ok (a, s2) → isnum a ≠ 0 →
  op_AT s = Fault AssertFail.
Proof.
  intros H1 H2 Ha. unfold op_AT. rewrite H1; simpl. rewrite H2; simpl.
  case_bool_decide; [done|]. by rewrite bool_decide_true.
Qed.

Lemma op_MPC_literal s a s1 :
  fetch s = Ok (a, s1) → isnum a ≠ 0 → op_MPC s = Fault AssertFail.
Proof.
  intros H1 Ha. unfold op_MPC. rewrite H1; simpl. by apply obj_write_num.
Qed.

Lemma op_IN_literal s w e s1 a s2 :
  fetch s = Ok (e, s1) → fetch s1 = Ok (a, s2) → isnum a ≠ 0 →
  op_IN s w = Fault AssertFail.
Proof.
  intros H1 H2 Ha. unfold op_IN. rewrite H1; simpl. rewrite H2; simpl.
  destruct (getinp w e). by rewrite obj_write_num.
Qed.

(** ADD and SUB read both operands before they write: the assertion is
    reached unless the source read itself goes out of bounds. *)
Lemma op_ADD_literal s e s1 a s2 :
  fetch s = Ok (e, s1) → fetch s1 = Ok (a, s2) → isnum a ≠ 0 →
  ∃ f, op_ADD s = Fault f ∧ (is_ok (obj_read s2 e) → f = AssertFail).
Proof.
  intros H1 H2 Ha. unfold op_ADD. rewrite H1; simpl. rewrite H2; simpl.
  rewrite (obj_read_num _ a) by done; simpl.
  destruct (obj_read s2 e) as [v|f]; simpl.
  - rewrite obj_write_num by done. eauto.
  - exists f. split; [done|]. intros [].
Qed.

Lemma op_SUB_literal s e s1 a s2 :
  fetch s = Ok (e, s1) → fetch s1 = Ok (a, s2) → isnum a ≠ 0 →
  ∃ f, op_SUB s = Fault f ∧ (is_ok (obj_read s2 e) → f = AssertFail).
Proof.
  intros H1 H2 Ha. unfold op_SUB. rewrite H1; simpl. rewrite H2; simpl.
  rewrite (obj_read_num _ a) by done; simpl.
  destruct (obj_read s2 e) as [v|f]; simpl.
  - rewrite obj_write_num by done. eauto.
  - exists f. split; [done|]. intros [].
Qed.

(** The opcodes that write through their address operand or use it as
    an index register (MOV, ADD, SUB, MPC, IN, AT, ATP) do reject a literal
    there: the iteration stops with a fault and no state is returned.  The
    fault is the failed assertion, except that ADD and SUB read their source
    first and that read may already be out of bounds. *)
Lemma literal_destination_faults s w icode s1 :
  fetch s = Ok (icode, s1) →
  (icode = MPC ∧ ∃ a s2, fetch s1 = Ok (a, s2) ∧ isnum a ≠ 0)
  ∨ (icode ∈ [MOV; ADD; SUB; IN; AT; ATP]
     ∧ ∃ e s2 a s3, fetch s1 = Ok (e, s2) ∧ fetch s2 = Ok (a, s3) ∧ isnum a ≠ 0) →
  ∃ f, step s w = Fault f
     ∧ (icode ≠ ADD → icode ≠ SUB → f = AssertFail)
     ∧ (∀ e s2 a s3, fetch s1 = Ok (e, s2) → fetch s2 = Ok (a, s3) →
          is_ok (obj_read s3 e) → f = AssertFail).
Proof.
  intros Hf Hcase. unfold step. rewrite Hf; simpl.
  destruct Hcase as [[-> (a & s2 & H1 & Ha)]
                    |[Hin (e & s2 & a & s3 & H1 & H2 & Ha)]].
  - simpl. unfold no_io. rewrite (op_MPC_literal _ _ _ H1 Ha). simpl. eauto.
  - rewrite !elem_of_cons, elem_of_nil in Hin.
    destruct Hin as [-> | [-> | [-> | [-> | [-> | [-> | []]]]]]];
      simpl; unfold no_io.
    + rewrite (op_MOV_literal _ _ _ _ _ H1 H2 Ha). simpl. eauto.
    + destruct (op_ADD_literal _ _ _ _ _ H1 H2 Ha) as (f & -> & Hok). simpl.
      exists f. repeat split; try done.
      intros e' s2' a' s3' H1' H2'.
      rewrite H1 in H1'. injection H1' as <- <-.
      rewrite H2 in H2'. injection H2' as <- <-. exact Hok.
    + destruct (op_SUB_literal _ _ _ _ _ H1 H2 Ha) as (f & -> & Hok). simpl.
      exists f. repeat split; try done.
      intros e' s2' a' s3' H1' H2'.
      rewrite H1 in H1'. injection H1' as <- <-.
      rewrite H2 in H2'. injection H2' as <- <-. exact Hok.
    + rewrite (op_IN_literal _ _ _ _ _ _ H1 H2 Ha). simpl. eauto.
    + rewrite (op_AT_literal _ _ _ _ _ H1 H2 Ha). simpl. eauto.
    + rewrite (op_ATP_literal _ _ _ _ _ H1 H2 Ha). simpl. eauto.
Qed.

Lemma literal_destination_faults_MOV :
  ∃ f, step (image_of 0 (replicate 8 0) [MOV; num_ 5; num_ 3]) quiet = Fault f
     ∧ (MOV ≠ ADD → MOV ≠ SUB → f = AssertFail)
     ∧ (∀ e s2 a s3,
          fetch (set_pc (image_of 0 (replicate 8 0) [MOV; num_ 5; num_ 3]) 1)
            = Ok (e, s2) →
          fetch s2 = Ok (a, s3) → is_ok (obj_read s3 e) → f = AssertFail).
Proof.
  set (s := image_of 0 (replicate 8 0) [MOV; num_ 5; num_ 3]).
  apply (literal_destination_faults s quiet MOV (set_pc s 1)); [reflexivity|].
  right. split.
  - apply list_elem_of_here.
  - exists (num_ 5), (set_pc s 2), (num_ 3), (set_pc s 3).
    split; [reflexivity|]. split; [reflexivity|]. by vm_compute.
Qed.

(** C8 (the code departs from it): JIF, JMR and OUT take an address
    operand too, yet they only pass it to [obj_read], which has no
    assertion.  With a literal there OUT prints it and JMR and JIF jump to
    it; the iteration returns normally. *)
Theorem literal_address_accepted :
  step (image_of 0 (replicate 8 0) [OUT; IO_NUM; num_ 65]) quiet
    = Ok (image_of 3 (replicate 8 0) [OUT; IO_NUM; num_ 65],
          mkWorld [] [PrintNum 65] false, RUNNING)
  ∧ step (image_of 0 (replicate 8 0) [JMR; num_ 9]) quiet
    = Ok (image_of 9 (replicate 8 0) [JMR; num_ 9], quiet, RUNNING)
  ∧ step (image_of 0 (replicate 8 0) [JIF; FL_ZERO; num_ 9]) quiet
    = Ok (image_of 9 (replicate 8 0) [JIF; FL_ZERO; num_ 9], quiet, RUNNING)
  ∧ isnum (num_ 65) = 1 ∧ isnum (num_ 9) = 1.
Proof. repeat split; by vm_compute. Qed.

(** ** The image store *)

Lemma put_u32_shape z : ∃ a b c d, put_u32 z = [a; b; c; d].
Proof.
  pose proof (length_Z_to_little_endian 4 8 z ltac:(lia)) as Hlen.
  unfold put_u32.
  destruct (Z_to_little_endian 4 8 z) as [|a [|b [|c [|d [|? ?]]]]];
    simpl in Hlen; try lia.
  by exists a, b, c, d.
Qed.

Lemma get_put_u32 z : 0 ≤ z < 2 ^ 32 → get_u32 (put_u32 z) = z.
Proof.
  intros Hz. unfold get_u32, put_u32.
  rewrite little_endian_to_Z_to_little_endian by lia.
  by apply Z.mod_small.
Qed.

Lemma length_header_bytes h : length (header_bytes h) = 16%nat.
Proof.
  unfold header_bytes.
  destruct (put_u32_shape (h_magic h)) as (? & ? & ? & ? & ->).
  destruct (put_u32_shape (h_size h)) as (? & ? & ? & ? & ->).
  destruct (put_u32_shape (h_memsize h)) as (? & ? & ? & ? & ->).
  by destruct (put_u32_shape (h_pc h)) as (? & ? & ? & ? & ->).
Qed.

(** Decoding the sixteen header bytes gives the four fields back. *)
Lemma header_round_trip magic size memsize pc0 :
  0 ≤ magic < 2 ^ 32 → 0 ≤ size < 2 ^ 32 →
  0 ≤ memsize < 2 ^ 32 → 0 ≤ pc0 < 2 ^ 32 →
  header_of_bytes (header_bytes (mkHeader magic size memsize pc0))
  = mkHeader magic size memsize pc0.
Proof.
  intros H1 H2 H3 H4. unfold header_bytes, header_of_bytes.
  cbn [h_magic h_size h_memsize h_pc].
  destruct (put_u32_shape magic) as (a1 & b1 & c1 & d1 & E1).
  destruct (put_u32_shape size) as (a2 & b2 & c2 & d2 & E2).
  destruct (put_u32_shape memsize) as (a3 & b3 & c3 & d3 & E3).
  destruct (put_u32_shape pc0) as (a4 & b4 & c4 & d4 & E4).
  rewrite E1, E2, E3, E4. cbn [take drop firstn skipn app].
  rewrite <-E1, <-E2, <-E3, <-E4.
  by rewrite !get_put_u32.
Qed.

Lemma read_body_done fuel rest buf : read_body fuel 0 rest buf = (buf, true).
Proof. by destruct fuel. Qed.

(** When the file still holds the whole pool, one [read] fetches it. *)
Lemma read_body_full fuel len rest buf :
  0 < len →
  length rest = Z.to_nat len →
  length buf = Z.to_nat len →
  read_body (S fuel) len rest buf = (rest, true).
Proof.
  intros Hlen Hrest Hbuf. simpl.
  rewrite bool_decide_true by done.
  rewrite take_ge by lia. rewrite Hrest, Z2Nat.id by lia.
  rewrite bool_decide_false by lia.
  rewrite Z.sub_diag, read_body_done.
  rewrite (drop_ge buf) by lia. by rewrite app_nil_r.
Qed.

(** Saving under a free name that [open] can create, then loading. *)
Lemma load_saved s0 s name creat fs junk :
  length (pmem s) = 128%nat →
  pmemsize s = MEM_SIZE →
  0 ≤ pc s < MEM_SIZE →
  fs !! name = None →
  creat name = true →
  load_image s0 (Some name) (save_image s (Some name) creat fs) junk
  = Loaded (mkPU (pc s) (fr s0) (r s0) (pmem s) MEM_SIZE).
Proof.
  intros Hlen Hsize Hpc Hfree Hcreat.
  unfold save_image. rewrite Hfree, Hcreat, Hsize.
  set (h := mkHeader _ _ _ _).
  unfold load_image. rewrite lookup_insert_eq.
  assert (Hh : take 16 (header_bytes h ++
                 (if bool_decide (0 < h_memsize h)
                  then take (Z.to_nat (h_memsize h)) (pmem s) else []))
               = header_bytes h).
  { apply take_app_length'. by rewrite length_header_bytes. }
  rewrite Hh, length_header_bytes.
  rewrite bool_decide_false by (unfold sizeof_h; lia).
  assert (Hdec : header_of_bytes (header_bytes h) = h).
  { subst h. unfold MEM_SIZE, MAGIC, sizeof_h in *.
    apply header_round_trip; try lia. apply u32_range. }
  rewrite Hdec. subst h. cbn [h_magic h_memsize h_pc].
  rewrite bool_decide_false by (intros Hne; by apply Hne).
  rewrite bool_decide_false by (unfold MEM_SIZE; lia).
  rewrite bool_decide_false by (intros Hne; by apply Hne).
  rewrite bool_decide_false by lia.
  rewrite drop_app_length' by (by rewrite length_header_bytes).
  rewrite bool_decide_true by (unfold MEM_SIZE; lia).
  rewrite (take_ge (pmem s)) by (unfold MEM_SIZE; lia).
  change (Z.to_nat MEM_SIZE) with (S 127).
  rewrite read_body_full; [done | by unfold MEM_SIZE | done |].
  rewrite length_take, length_app, length_replicate. unfold MEM_SIZE. lia.
Qed.

(** C7 (as amended): an image saved from a machine whose counter lies
    inside the 128-byte pool, under a name that is still free and that
    [open] can create, loads into the fresh [Core1] with the same counter
    and the same pool contents; the registers and the flags register of the
    loaded machine are zero, whatever they were in the saved one. *)
Theorem image_round_trip s name creat fs junk :
  length (pmem s) = 128%nat →
  pmemsize s = MEM_SIZE →
  0 ≤ pc s < MEM_SIZE →
  fs !! name = None →
  creat name = true →
  load_image Core1 (Some name) (save_image s (Some name) creat fs) junk
  = Loaded (mkPU (pc s) 0 (replicate 8 0) (pmem s) MEM_SIZE).
Proof. apply (load_saved Core1). Qed.

Lemma image_round_trip_witness :
  load_image Core1 (Some "core.img")
    (save_image (mkPU 7 3 [1; 2; 3; 4; 5; 6; 7; 8] MEM 128) (Some "core.img")
                (λ _, true) ∅) []
  = Loaded (mkPU 7 0 (replicate 8 0) MEM MEM_SIZE).
Proof.
  apply (image_round_trip (mkPU 7 3 [1; 2; 3; 4; 5; 6; 7; 8] MEM 128)
           "core.img" (λ _, true) ∅ []);
    first [reflexivity | unfold MEM_SIZE; simpl; lia].
Defined.

(** C7 (as stated) fails for a machine that has halted on the last byte of
    the pool: the counter is then 128, the image is written, and loading it
    back is refused with the message about the counter, which leaves the
    core with the counter 128 and an unread pool. *)
Lemma image_of_halted_machine_rejected :
  let s := mkPU 127 0 (replicate 8 0) MEM 128 in
  ∃ s',
    step s quiet = Ok (s', quiet, HALTED)
    ∧ pc s' = 128
    ∧ load_image Core1 (Some "core.img")
        (save_image s' (Some "core.img") (λ _, true) ∅) []
      = LoadFailed (ErrPcBeyond 128 128)
                   (mkPU 128 0 (replicate 8 0) (replicate 128 0) 128).
Proof.
  eexists. split; [vm_compute; reflexivity|].
  split; [reflexivity | by vm_compute].
Qed.

(** ** Load faults *)

Lemma length_take_16 (bytes : list Z) :
  Z.of_nat (length (take 16 bytes)) < sizeof_h ↔ Z.of_nat (length bytes) < sizeof_h.
Proof. rewrite length_take. unfold sizeof_h. lia. Qed.

(** A body shorter than the pool makes the loop meet the end of file. *)
Lemma read_body_short fuel len rest buf :
  Z.of_nat (length rest) < len → (read_body fuel len rest buf).2 = false.
Proof.
  revert len rest buf. induction fuel as [|fuel IH]; intros len rest buf Hlen; simpl.
  - by rewrite bool_decide_false by lia.
  - rewrite bool_decide_true by lia.
    rewrite take_ge by lia. case_bool_decide; [done|].
    apply IH. rewrite length_drop. lia.
Qed.

Lemma read_body_Some fuel len rest buf mem :
  0 < len → read_body fuel len rest buf = (mem, true) → len ≤ Z.of_nat (length rest).
Proof.
  intros Hlen Hread. destruct (decide (len ≤ Z.of_nat (length rest))); [done|].
  pose proof (read_body_short fuel len rest buf ltac:(lia)) as Hshort.
  rewrite Hread in Hshort. discriminate.
Qed.

(** The loop stores inside the pool: its length does not change. *)
Lemma read_body_length fuel len rest buf :
  len ≤ Z.of_nat (length buf) →
  length (read_body fuel len rest buf).1 = length buf.
Proof.
  revert len rest buf. induction fuel as [|fuel IH]; intros len rest buf Hlen; simpl;
    [done|].
  case_bool_decide; [|done]. case_bool_decide; [done|].
  assert (Hgot : (length (take (Z.to_nat len) rest) ≤ Z.to_nat len)%nat)
    by (rewrite length_take; lia).
  assert (Hsame : length (take (Z.to_nat len) rest
                          ++ drop (Z.to_nat (Z.of_nat (length (take (Z.to_nat len) rest)))) buf)
                  = length buf).
  { rewrite length_app, length_drop. lia. }
  rewrite IH; [done|]. rewrite Hsame. lia.
Qed.

Lemma length_fresh_block n (junk : list Z) :
  length (take n (junk ++ replicate n 0)) = n.
Proof. rewrite length_take, length_app, length_replicate. lia. Qed.

(** The core that a refused image leaves behind: untouched when the test
    that fails comes before the pool is allocated, and with the pool, its
    size and the counter of the header assigned otherwise. *)
Lemma load_image_rejects s name fs junk e :
  rejects (fs !! name) name e →
  ∃ core,
    load_image s (Some name) fs junk = LoadFailed e core
    ∧ r core = r s ∧ fr core = fr s
    ∧ match e with
      | ErrPcBeyond pc0 memsize =>
          pc core = pc0 ∧ pmemsize core = memsize ∧ memsize = MEM_SIZE
          ∧ length (pmem core) = 128%nat
      | ErrShortBody _ =>
          (∀ bytes, fs !! name = Some bytes →
                    pc core = h_pc (header_of_bytes (take 16 bytes)))
          ∧ pmemsize core = MEM_SIZE ∧ length (pmem core) = 128%nat
      | _ => core = s
      end.
Proof.
  unfold load_image. intros Hrej.
  destruct (fs !! name) as [bytes|] eqn:Hfile; inversion Hrej; subst; [..|by eexists];
    (destruct (bool_decide_reflect (Z.of_nat (length (take 16 bytes)) < sizeof_h))
      as [Hs|Hs]; rewrite length_take_16 in Hs; [first [by eexists | lia]|]);
    try lia;
    set (h := header_of_bytes (take 16 bytes)) in *.
  - rewrite bool_decide_true by done. by eexists.
  - rewrite bool_decide_false by (intros Hne; by apply Hne).
    rewrite bool_decide_false by (intros Hne; by apply Hne).
    rewrite bool_decide_true by done. by eexists.
  - rewrite bool_decide_false by (intros Hne; by apply Hne).
    rewrite bool_decide_false by (intros Hne; apply Hne; unfold MEM_SIZE in *; lia).
    rewrite bool_decide_false by (intros Hne; by apply Hne).
    rewrite bool_decide_true by lia.
    eexists. split; [done|]. cbn [r fr pc pmem pmemsize].
    repeat split; try done. rewrite length_fresh_block.
    match goal with H : h_memsize h = MEM_SIZE |- _ => by rewrite H end.
  - rewrite bool_decide_false by (intros Hne; by apply Hne).
    rewrite bool_decide_false by (intros Hne; apply Hne; unfold MEM_SIZE in *; lia).
    rewrite bool_decide_false by (intros Hne; by apply Hne).
    rewrite bool_decide_false by lia.
    set (buf := take _ (junk ++ _)).
    pose proof (read_body_short (Z.to_nat (h_memsize h)) (h_memsize h) (drop 16 bytes) buf)
      as Hshort.
    pose proof (read_body_length (Z.to_nat (h_memsize h)) (h_memsize h) (drop 16 bytes) buf)
      as Hlength.
    destruct (read_body _ _ _ _) as [mem ok]. cbn [fst snd] in Hshort, Hlength.
    assert (Z.of_nat (length (drop 16 bytes)) < h_memsize h). { rewrite length_drop.
      match goal with H : h_memsize h = MEM_SIZE |- _ => rewrite H end.
      unfold sizeof_h, MEM_SIZE in *. lia. }
 rewrite Hshort by done.
    subst buf. rewrite length_fresh_block in Hlength.
    eexists. split; [done|]. cbn [r fr pc pmem pmemsize].
    repeat split; try done.
    + by intros ? [= <-].
    + rewrite Hlength by (match goal with H : h_memsize h = MEM_SIZE |- _ => rewrite H end; done).
      match goal with H : h_memsize h = MEM_SIZE |- _ => by rewrite H end.
Qed.

Lemma load_image_accepted s name fs junk s' :
  load_image s (Some name) fs junk = Loaded s' → accepted (fs !! name).
Proof.
  unfold load_image. destruct (fs !! name) as [bytes|]; [|discriminate].
  destruct (bool_decide_reflect (Z.of_nat (length (take 16 bytes)) < sizeof_h))
    as [Hs|Hs]; [discriminate|].
  rewrite length_take_16 in Hs.
  repeat (case_bool_decide; try discriminate).
  destruct (read_body _ _ _ _) as [mem [|]] eqn:Hread; [|discriminate].
  intros _. exists bytes. split; [done|].
  apply read_body_Some in Hread; [|lia].
  rewrite length_drop in Hread. unfold sizeof_h in *.
  repeat split; lia.
Qed.

(** Every refusal is reported once, on one of the two streams. *)
Lemma load_error_reported e :
  (length (load_stdout e) + length (load_stderr e) = 1)%nat.
Proof. by destruct e. Qed.

(** C9 (as amended): when the image cannot be opened, its header is short,
    the magic number is wrong, the memory size is positive and differs from
    the pool size, the counter is not below the memory size, or the body is
    short, [load_image] returns -1 and [main] exits with status 1 having run
    no instruction: the files and the pending input are untouched, the
    registers and the flags are still zero, and the one message of the
    failing test is all that is printed, on the standard output for the
    magic number, the size and the counter, through [perror] for the three
    others.  The pool, its size and the counter are untouched when the
    failing test precedes the allocation; for a counter out of range and for
    a short body they have been assigned from the header already.  And a
    machine is loaded only from an image that passes all of these tests. *)
Theorem main_load_faults fuel name savefile creat fs junk w :
  (∀ e, rejects (fs !! name) name e →
     ∃ core,
       load_image Core1 (Some name) fs junk = LoadFailed e core
       ∧ main fuel (Some name) savefile creat fs junk w
         = Some (Exited 1 core fs
                   (mkWorld (stdin w) (stdout w ++ load_stdout e) (tty w))
                   (load_stderr e))
       ∧ (length (load_stdout e) + length (load_stderr e) = 1)%nat
       ∧ r core = replicate 8 0 ∧ fr core = 0
       ∧ match e with
         | ErrPcBeyond pc0 memsize =>
             pc core = pc0 ∧ pmemsize core = memsize ∧ memsize = MEM_SIZE
             ∧ length (pmem core) = 128%nat
         | ErrShortBody _ =>
             (∀ bytes, fs !! name = Some bytes →
                       pc core = h_pc (header_of_bytes (take 16 bytes)))
             ∧ pmemsize core = MEM_SIZE ∧ length (pmem core) = 128%nat
         | _ => core = Core1
         end)
  ∧ (∀ s, load_image Core1 (Some name) fs junk = Loaded s → accepted (fs !! name)).
Proof.
  split.
  - intros e Hrej.
    destruct (load_image_rejects Core1 name fs junk e Hrej)
      as (core & Hload & Hr & Hfr & Hcore).
    exists core. split; [done|]. split; [unfold main; by rewrite Hload|].
    split; [apply load_error_reported|]. by repeat split.
  - intros s. apply load_image_accepted.
Qed.

(** C9 (as stated) fails for a header whose memory size is 0: the size
    differs from the pool size, yet the run ends in the failed assertion
    [0 < h.memsize] and not with exit status 1. *)
Lemma zero_memsize_aborts :
  let fs : gmap string (list Z) :=
    {[ "core.img" := header_bytes (mkHeader MAGIC 16 0 0) ]} in
  h_memsize (header_of_bytes (header_bytes (mkHeader MAGIC 16 0 0))) ≠ MEM_SIZE
  ∧ load_image Core1 (Some "core.img") fs [] = LoadAbort
  ∧ ∀ fuel creat, main fuel (Some "core.img") None creat fs [] quiet
                  = Some (Aborted AssertFail).
Proof.
  split; [by vm_compute|]. split; [by vm_compute|].
  intros fuel creat. by vm_compute.
Qed.

Lemma main_load_faults_witness :
  let fs : gmap string (list Z) :=
    {[ "small.img" := header_bytes (mkHeader MAGIC 80 64 0) ++ replicate 64 0;
       "late.img" := header_bytes (mkHeader MAGIC 144 128 128) ++ replicate 128 0 ]} in
  rejects (fs !! "gone.img") "gone.img" (ErrOpen "gone.img")
  ∧ rejects (fs !! "small.img") "small.img" (ErrSizeMismatch 64)
  ∧ rejects (fs !! "late.img") "late.img" (ErrPcBeyond 128 128)
  ∧ main 9 (Some "gone.img") None (λ _, true) fs [] quiet
    = Some (Exited 1 Core1 fs quiet [Perror "gone.img"])
  ∧ main 9 (Some "small.img") None (λ _, true) fs [] quiet
    = Some (Exited 1 Core1 fs
              (mkWorld [] [ErrorLine "error: memory size mismatch %d" [64]] false) [])
  ∧ main 9 (Some "late.img") None (λ _, true) fs [] quiet
    = Some (Exited 1 (mkPU 128 0 (replicate 8 0) (replicate 128 0) 128) fs
              (mkWorld [] [ErrorLine "error: pc %d beyond memory %d" [128; 128]] false) []).
Proof.
  intros fs.
  assert (H1 : rejects (fs !! "gone.img") "gone.img" (ErrOpen "gone.img"))
    by apply rej_open.
  assert (H2 : rejects (fs !! "small.img") "small.img" (ErrSizeMismatch 64)).
  { apply (rej_size (header_bytes (mkHeader MAGIC 80 64 0) ++ replicate 64 0));
      by vm_compute. }
  assert (H3 : rejects (fs !! "late.img") "late.img" (ErrPcBeyond 128 128)).
  { apply (rej_pc (header_bytes (mkHeader MAGIC 144 128 128) ++ replicate 128 0));
      by vm_compute. }
  split; [done|]. split; [done|]. split; [done|].
  destruct (proj1 (main_load_faults 9 "gone.img" None (λ _, true) fs [] quiet) _ H1)
    as (c1 & L1 & M1 & _).
  destruct (proj1 (main_load_faults 9 "small.img" None (λ _, true) fs [] quiet) _ H2)
    as (c2 & L2 & M2 & _).
  destruct (proj1 (main_load_faults 9 "late.img" None (λ _, true) fs [] quiet) _ H3)
    as (c3 & L3 & M3 & _).
  vm_compute in L1, L2, L3.
  injection L1 as <-. injection L2 as <-. injection L3 as <-.
  split; [exact M1|]. split; [exact M2 | exact M3].
Defined.

(** * Further properties of the code *)

(** ** The operand codec *)

(** A number below 2^31 that is encoded with [num_] reads back as itself
    in every state, and for a number up to 127 the encoding is one byte. *)
Theorem obj_read_num_round_trip s n :
  0 ≤ n < 2 ^ 31 →
  isnum (num_ n) = 1
  ∧ obj_read s (num_ n) = Ok n
  ∧ (n ≤ 127 → 0 ≤ num_ n ≤ 255).
Proof.
  intros Hn. split; [apply isnum_num_|]. split.
  - rewrite obj_read_num by (by rewrite isnum_num_).
    by rewrite tonum_num_, Z.mod_small.
  - intros Hb. unfold num_. rewrite u32_small; lia.
Qed.

Lemma obj_read_num_round_trip_witness :
  isnum (num_ 100) = 1
  ∧ obj_read Core1 (num_ 100) = Ok 100
  ∧ (100 ≤ 127 → 0 ≤ num_ 100 ≤ 255).
Proof. apply (obj_read_num_round_trip Core1 100). lia. Defined.

(** ** Writing a cell and reading it back *)

Lemma at_index_insert_ne {A} (a : list A) i j y :
  i ≠ j → 0 ≤ i → at_index (<[Z.to_nat i := y]> a) j = at_index a j.
Proof.
  intros Hne Hi. unfold at_index. case_bool_decide; [|done].
  apply list_lookup_insert_ne. lia.
Qed.

Lemma cell_set_other s k v s' k' :
  cell_set s k v = Ok s' → k' ≠ k → cell_get s' k' = cell_get s k'.
Proof.
  destruct k as [i|i]; simpl; unfold reg_set, mem_set;
    destruct (at_index _ i) as [x|] eqn:Hx; intros Hs Hne; simplify_eq;
    apply at_index_Some in Hx as [Hi _];
    destruct k' as [j|j]; simpl; unfold reg_get, mem_get; simpl; try done;
    rewrite at_index_insert_ne; try done; congruence.
Qed.

Lemma cell_set_inv s k v s' :
  cell_set s k v = Ok s' →
  ∃ old, cell_get s k = Ok old
    ∧ cell_get s' k = Ok (match k with InReg _ => v | InMem _ => u8 v end)
    ∧ pc s' = pc s ∧ fr s' = fr s ∧ pmemsize s' = pmemsize s.
Proof.
  intros Hset.
  destruct k as [i|i]; simpl in *; unfold reg_set, mem_set, reg_get, mem_get in *;
    destruct (at_index _ i) as [x|] eqn:Hx; simplify_eq;
    exists x; simpl; by erewrite at_index_insert.
Qed.

(** A write that returns has stored the value of its source: reading the
    destination afterwards gives that value (its low byte for a pool cell);
    the counter, the flags and every other register and pool cell are as
    before. *)
Theorem obj_write_read_back s a e s' :
  obj_write s a e = Ok s' →
  ∃ v, obj_read s e = Ok v
    ∧ obj_read s' a = Ok (match obj_cell (a `div` 2) with
                          | InReg _ => v
                          | InMem _ => u8 v
                          end)
    ∧ pc s' = pc s ∧ fr s' = fr s ∧ pmemsize s' = pmemsize s
    ∧ (∀ k, k ≠ obj_cell (a `div` 2) → cell_get s' k = cell_get s k).
Proof.
  unfold obj_write. case_bool_decide as Hnum; [discriminate|].
  intros Hw. inv_bind.
  match goal with Hr : obj_read s e = Ok ?x |- _ => exists x end.
  destruct (cell_set_inv _ _ _ _ Hw) as (old & _ & Hget & Hpc & Hfr & Hsz).
  split; [done|]. split.
  { rewrite obj_read_ref; [done|].
    destruct (decide (isnum a = 0)); [done|]. by destruct Hnum. }
  repeat split; try done.
  intros k Hk. by eapply cell_set_other.
Qed.

Lemma obj_write_read_back_witness :
  ∃ v, obj_read (image_of 0 [4; 5; 6; 7; 0; 0; 0; 0] []) R1 = Ok v
    ∧ obj_read (image_of 0 [4; 5; 5; 7; 0; 0; 0; 0] []) R2 =
        Ok (match obj_cell (R2 `div` 2) with InReg _ => v | InMem _ => u8 v end)
    ∧ pc (image_of 0 [4; 5; 5; 7; 0; 0; 0; 0] []) = pc (image_of 0 [4; 5; 6; 7; 0; 0; 0; 0] [])
    ∧ fr (image_of 0 [4; 5; 5; 7; 0; 0; 0; 0] []) = fr (image_of 0 [4; 5; 6; 7; 0; 0; 0; 0] [])
    ∧ pmemsize (image_of 0 [4; 5; 5; 7; 0; 0; 0; 0] []) = pmemsize (image_of 0 [4; 5; 6; 7; 0; 0; 0; 0] [])
    ∧ (∀ k, k ≠ obj_cell (R2 `div` 2) →
         cell_get (image_of 0 [4; 5; 5; 7; 0; 0; 0; 0] []) k
         = cell_get (image_of 0 [4; 5; 6; 7; 0; 0; 0; 0] []) k).
Proof.
  apply (obj_write_read_back (image_of 0 [4; 5; 6; 7; 0; 0; 0; 0] []) R2 R1).
  reflexivity.
Defined.

(** ** Operand bytes and the size of the pool *)

(** In a machine with 8 registers and the 128-byte pool, resolving an
    operand byte never leaves the pool: the read returns a value, except
    for the references with index 8..15, which the guard sends past the
    register array. *)
Theorem operand_byte_resolves s e :
  length (r s) = 8%nat →
  length (pmem s) = 128%nat →
  0 ≤ e ≤ 255 →
  (∃ v, obj_read s e = Ok v)
  ∨ (isnum e = 0 ∧ 8 ≤ e `div` 2 < 16 ∧ obj_read s e = Fault (OobReg (e `div` 2))).
Proof.
  intros Hr Hm He. unfold obj_read. case_bool_decide as Hnum; [eauto|].
  assert (Hnum0 : isnum e = 0) by (destruct (decide (isnum e = 0)); [done | by destruct Hnum]).
  assert (Hidx : 0 ≤ e `div` 2 ≤ 127) by (Z.div_mod_to_equations; lia).
  unfold obj_cell. case_bool_decide as H16; simpl.
  - unfold reg_get, at_index. rewrite bool_decide_true by lia.
    destruct (decide (e `div` 2 < 8)) as [Hlow|Hhigh].
    + destruct (lookup_lt_is_Some_2 (r s) (Z.to_nat (e `div` 2))) as [v ->]; [lia|].
      eauto.
    + right. rewrite (lookup_ge_None_2 (r s)) by lia. repeat split; [done|lia..].
  - unfold mem_get, at_index. rewrite bool_decide_true by lia.
    destruct (lookup_lt_is_Some_2 (pmem s) (Z.to_nat (e `div` 2))) as [v ->]; [lia|].
    eauto.
Qed.

Lemma operand_byte_resolves_witness :
  (∃ v, obj_read (image_of 0 (replicate 8 0) []) 254 = Ok v)
  ∨ (isnum 254 = 0 ∧ 8 ≤ 254 `div` 2 < 16
     ∧ obj_read (image_of 0 (replicate 8 0) []) 254 = Fault (OobReg (254 `div` 2))).
Proof.
  apply (operand_byte_resolves (image_of 0 (replicate 8 0) []) 254);
    first [reflexivity | lia].
Defined.

(** ** MOV, MPC and the jumps *)

Lemma fetch_cell_get s b s' k : fetch s = Ok (b, s') → cell_get s' k = cell_get s k.
Proof.
  intros Hf. destruct k; simpl; unfold reg_get, mem_get;
    by rewrite ?(fetch_r _ _ _ Hf), ?(fetch_pmem _ _ _ Hf).
Qed.

Lemma fetch_obj_read s b s' e : fetch s = Ok (b, s') → obj_read s' e = obj_read s e.
Proof.
  intros Hf. unfold obj_read. case_bool_decide; [done|].
  by eapply fetch_cell_get.
Qed.

Lemma fetch_pmemsize s b s' : fetch s = Ok (b, s') → pmemsize s' = pmemsize s.
Proof. unfold fetch. intros H. inv_bind. done. Qed.

(** The constructive counterpart of the read-back: a reference whose cell
    exists can be written. *)
Lemma obj_write_ok s a e v old :
  isnum a = 0 →
  obj_read s e = Ok v →
  obj_read s a = Ok old →
  ∃ s', obj_write s a e = Ok s'
      ∧ obj_read s' a = Ok (match obj_cell (a `div` 2) with
                            | InReg _ => v
                            | InMem _ => u8 v
                            end)
      ∧ pc s' = pc s ∧ fr s' = fr s
      ∧ (∀ k, k ≠ obj_cell (a `div` 2) → cell_get s' k = cell_get s k).
Proof.
  intros Ha Hv Hold. rewrite obj_read_ref in Hold by done.
  destruct (cell_set_ok s (obj_cell (a `div` 2)) v old Hold)
    as (s' & Hset & Hget & Hpc & Hfr).
  exists s'. rewrite obj_write_ref, Hv by done; simpl.
  split; [done|]. rewrite obj_read_ref by done.
  repeat split; try done.
  intros k Hk. by eapply cell_set_other.
Qed.

(** MOV copies the value of its source into the destination (the low
    byte into a pool cell), moves the counter past its two operands and
    changes neither the flags nor any other cell. *)
Theorem op_MOV_spec s expr addr s1 s2 v old :
  fetch s = Ok (expr, s1) →
  fetch s1 = Ok (addr, s2) →
  isnum addr = 0 →
  obj_read s expr = Ok v →
  obj_read s addr = Ok old →
  ∃ s', op_MOV s = Ok s'
      ∧ obj_read s' addr = Ok (match obj_cell (addr `div` 2) with
                               | InReg _ => v
                               | InMem _ => u8 v
                               end)
      ∧ pc s' = pc s2 ∧ fr s' = fr s
      ∧ (∀ k, k ≠ obj_cell (addr `div` 2) → cell_get s' k = cell_get s k).
Proof.
  intros Hf1 Hf2 Ha Hv Hold.
  assert (Hv2 : obj_read s2 expr = Ok v).
  { by rewrite (fetch_obj_read _ _ _ _ Hf2), (fetch_obj_read _ _ _ _ Hf1). }
  assert (Hold2 : obj_read s2 addr = Ok old).
  { by rewrite (fetch_obj_read _ _ _ _ Hf2), (fetch_obj_read _ _ _ _ Hf1). }
  destruct (obj_write_ok s2 addr expr v old Ha Hv2 Hold2)
    as (s' & Hw & Hget & Hpc & Hfr & Hother).
  exists s'. unfold op_MOV. rewrite Hf1; simpl. rewrite Hf2; simpl.
  repeat split; try done.
  - by rewrite Hfr, (fetch_fr _ _ _ Hf2), (fetch_fr _ _ _ Hf1).
  - intros k Hk. rewrite Hother by done.
    by rewrite (fetch_cell_get _ _ _ _ Hf2), (fetch_cell_get _ _ _ _ Hf1).
Qed.

Lemma op_MOV_spec_witness :
  ∃ s', op_MOV (image_of 1 [0; 0; 9; 0; 0; 0; 0; 0] [MOV; R2; 40]) = Ok s'
      ∧ obj_read s' 40 = Ok (match obj_cell (40 `div` 2) with
                             | InReg _ => 9
                             | InMem _ => u8 9
                             end)
      ∧ pc s' = 3
      ∧ fr s' = 0
      ∧ (∀ k, k ≠ obj_cell (40 `div` 2) →
           cell_get s' k = cell_get (image_of 1 [0; 0; 9; 0; 0; 0; 0; 0] [MOV; R2; 40]) k).
Proof.
  set (s := image_of 1 [0; 0; 9; 0; 0; 0; 0; 0] [MOV; R2; 40]).
  apply (op_MOV_spec s R2 40 (set_pc s 2) (set_pc s 3) 9 0); reflexivity.
Defined.

(** MPC stores the counter as it stands after the operand fetch, so the
    address of the next instruction; a JMR through the same reference, as
    long as the cell still holds it, continues there. *)
Theorem op_MPC_then_JMR s addr s1 old :
  fetch s = Ok (addr, s1) →
  isnum addr = 0 →
  obj_read s addr = Ok old →
  0 ≤ pc s1 < 256 →
  ∃ s', op_MPC s = Ok s'
      ∧ obj_read s' addr = Ok (pc s1)
      ∧ pc s' = pc s1
      ∧ (∀ t t1, fetch t = Ok (addr, t1) →
           obj_read t addr = obj_read s' addr →
           op_JMR t = Ok (set_pc t1 (pc s1))).
Proof.
  intros Hf Ha Hold Hpc.
  rewrite <-(fetch_obj_read _ _ _ _ Hf) in Hold.
  assert (Hv : obj_read s1 (num_ (pc s1)) = Ok (pc s1)).
  { rewrite obj_read_num by (by rewrite isnum_num_).
    rewrite tonum_num_, Z.mod_small; [done | lia]. }
  destruct (obj_write_ok s1 addr (num_ (pc s1)) (pc s1) old Ha Hv Hold)
    as (s' & Hw & Hget & Hpc' & _).
  exists s'. unfold op_MPC. rewrite Hf; simpl.
  assert (Hback : obj_read s' addr = Ok (pc s1)).
  { rewrite Hget. destruct (obj_cell _); [done|]. by rewrite u8_small. }
  repeat split; try done.
  intros t t1 Ht Hsame. unfold op_JMR. rewrite Ht; simpl.
  by rewrite (fetch_obj_read _ _ _ _ Ht), Hsame, Hback.
Qed.

Lemma op_MPC_then_JMR_witness :
  ∃ s', op_MPC (image_of 1 (replicate 8 0) [MPC; R4]) = Ok s'
      ∧ obj_read s' R4 = Ok 2
      ∧ pc s' = 2
      ∧ (∀ t t1, fetch t = Ok (R4, t1) →
           obj_read t R4 = obj_read s' R4 →
           op_JMR t = Ok (set_pc t1 2)).
Proof.
  set (s := image_of 1 (replicate 8 0) [MPC; R4]).
  apply (op_MPC_then_JMR s R4 (set_pc s 2) 0); first [reflexivity | simpl; lia].
Defined.

(** An iteration that runs JIF or JMR may move the counter and does
    nothing else: registers, pool, flags and console are as before, and
    the loop goes on. *)
Theorem jumps_only_move_pc s w icode s1 s' w' st :
  fetch s = Ok (icode, s1) →
  icode = JIF ∨ icode = JMR →
  step s w = Ok (s', w', st) →
  r s' = r s ∧ pmem s' = pmem s ∧ fr s' = fr s ∧ pmemsize s' = pmemsize s
  ∧ w' = w ∧ st = RUNNING.
Proof.
  intros Hf Hcase Hstep. unfold step in Hstep. rewrite Hf in Hstep; simpl in Hstep.
  pose proof (fetch_r _ _ _ Hf) as Hr. pose proof (fetch_pmem _ _ _ Hf) as Hm.
  pose proof (fetch_fr _ _ _ Hf) as Hfr. pose proof (fetch_pmemsize _ _ _ Hf) as Hsz.
  destruct Hcase as [-> | ->]; simpl in Hstep; unfold no_io in Hstep; inv_bind.
  - match goal with H : op_JIF _ = Ok _ |- _ => unfold op_JIF in H; inv_handler H end;
      repeat match goal with
      | H : fetch _ = Ok _ |- _ =>
          pose proof (fetch_r _ _ _ H); pose proof (fetch_pmem _ _ _ H);
          pose proof (fetch_fr _ _ _ H); pose proof (fetch_pmemsize _ _ _ H); clear H
      end; simpl; repeat split; congruence.
  - match goal with H : op_JMR _ = Ok _ |- _ => unfold op_JMR in H; inv_handler H end;
      repeat match goal with
      | H : fetch _ = Ok _ |- _ =>
          pose proof (fetch_r _ _ _ H); pose proof (fetch_pmem _ _ _ H);
          pose proof (fetch_fr _ _ _ H); pose proof (fetch_pmemsize _ _ _ H); clear H
      end; simpl; repeat split; congruence.
Qed.

Lemma jumps_only_move_pc_witness :
  let s := image_of 0 [0; 0; 0; 30; 0; 0; 0; 0] [JMR; R3] in
  let s' := image_of 30 [0; 0; 0; 30; 0; 0; 0; 0] [JMR; R3] in
  r s' = r s ∧ pmem s' = pmem s ∧ fr s' = fr s ∧ pmemsize s' = pmemsize s
  ∧ quiet = quiet ∧ RUNNING = RUNNING.
Proof.
  intros s s'.
  apply (jumps_only_move_pc s quiet JMR (set_pc s 1) s' quiet RUNNING);
    first [reflexivity | by right].
Defined.

(** ** ATP: the indirect store *)

(** ATP reads the index [a] held in the cell that its second operand
    names and stores the value of its first operand into cell [a]: a
    register when [a] falls under the register guard, a pool cell (low
    byte) otherwise.  Nothing else changes but the counter. *)
Theorem op_ATP_spec s expr ixreg s1 s2 a v old :
  fetch s = Ok (expr, s1) →
  fetch s1 = Ok (ixreg, s2) →
  isnum ixreg = 0 →
  obj_read s ixreg = Ok a →
  0 ≤ a < 2 ^ 31 →
  obj_read s expr = Ok v →
  cell_get s (obj_cell a) = Ok old →
  ∃ s', op_ATP s = Ok s'
      ∧ cell_get s' (obj_cell a) = Ok (match obj_cell a with
                                       | InReg _ => v
                                       | InMem _ => u8 v
                                       end)
      ∧ pc s' = pc s2 ∧ fr s' = fr s
      ∧ (∀ k, k ≠ obj_cell a → cell_get s' k = cell_get s k).
Proof.
  intros Hf1 Hf2 Hix Ha Hrange Hv Hold.
  assert (Ha2 : obj_read s2 ixreg = Ok a).
  { by rewrite (fetch_obj_read _ _ _ _ Hf2), (fetch_obj_read _ _ _ _ Hf1). }
  assert (Hv2 : obj_read s2 expr = Ok v).
  { by rewrite (fetch_obj_read _ _ _ _ Hf2), (fetch_obj_read _ _ _ _ Hf1). }
  assert (Hidx : addr_ a `div` 2 = a) by (rewrite addr_index; by apply Z.mod_small).
  assert (Hold2 : obj_read s2 (addr_ a) = Ok old).
  { rewrite obj_read_ref, Hidx by apply isnum_addr_.
    by rewrite (fetch_cell_get _ _ _ _ Hf2), (fetch_cell_get _ _ _ _ Hf1). }
  destruct (obj_write_ok s2 (addr_ a) expr v old (isnum_addr_ a) Hv2 Hold2)
    as (s' & Hw & Hget & Hpc & Hfr & Hother).
  rewrite obj_read_ref, Hidx in Hget by apply isnum_addr_.
  rewrite Hidx in Hother.
  exists s'. unfold op_ATP. rewrite Hf1; simpl. rewrite Hf2; simpl.
  rewrite bool_decide_false by lia. rewrite Ha2; simpl.
  repeat split; try done.
  - by rewrite Hfr, (fetch_fr _ _ _ Hf2), (fetch_fr _ _ _ Hf1).
  - intros k Hk. rewrite Hother by done.
    by rewrite (fetch_cell_get _ _ _ _ Hf2), (fetch_cell_get _ _ _ _ Hf1).
Qed.

Lemma op_ATP_spec_witness :
  ∃ s', op_ATP (image_of 1 [0; 77; 0; 100; 0; 0; 0; 0] [ATP; R1; R3]) = Ok s'
      ∧ cell_get s' (obj_cell 100) = Ok (match obj_cell 100 with
                                         | InReg _ => 77
                                         | InMem _ => u8 77
                                         end)
      ∧ pc s' = 3
      ∧ fr s' = 0
      ∧ (∀ k, k ≠ obj_cell 100 →
           cell_get s' k
           = cell_get (image_of 1 [0; 77; 0; 100; 0; 0; 0; 0] [ATP; R1; R3]) k).
Proof.
  set (s := image_of 1 [0; 77; 0; 100; 0; 0; 0; 0] [ATP; R1; R3]).
  apply (op_ATP_spec s R1 R3 (set_pc s 2) (set_pc s 3) 100 77 0);
    first [reflexivity | lia].
Defined.

(** The index is not checked against the pool: with the 128-byte pool,
    an index register holding 128 or more makes ATP store past the end of
    the pool. *)
Theorem op_ATP_index_past_pool s expr ixreg s1 s2 a v :
  fetch s = Ok (expr, s1) →
  fetch s1 = Ok (ixreg, s2) →
  isnum ixreg = 0 →
  obj_read s ixreg = Ok a →
  length (pmem s) = 128%nat →
  128 ≤ a < 2 ^ 31 →
  obj_read s expr = Ok v →
  op_ATP s = Fault (OobMem a).
Proof.
  intros Hf1 Hf2 Hix Ha Hlen Hrange Hv.
  assert (Ha2 : obj_read s2 ixreg = Ok a).
  { by rewrite (fetch_obj_read _ _ _ _ Hf2), (fetch_obj_read _ _ _ _ Hf1). }
  assert (Hv2 : obj_read s2 expr = Ok v).
  { by rewrite (fetch_obj_read _ _ _ _ Hf2), (fetch_obj_read _ _ _ _ Hf1). }
  unfold op_ATP. rewrite Hf1; simpl. rewrite Hf2; simpl.
  rewrite bool_decide_false by lia. rewrite Ha2; simpl.
  rewrite obj_write_ref, Hv2 by apply isnum_addr_. simpl.
  rewrite addr_index, Z.mod_small by lia.
  rewrite obj_cell_pool by lia. simpl. unfold mem_set, at_index.
  rewrite bool_decide_true by lia.
  rewrite (lookup_ge_None_2 (pmem s2)); [done|].
  rewrite (fetch_pmem _ _ _ Hf2), (fetch_pmem _ _ _ Hf1). lia.
Qed.

Lemma op_ATP_index_past_pool_witness :
  op_ATP (image_of 1 [0; 77; 0; 128; 0; 0; 0; 0] [ATP; R1; R3]) = Fault (OobMem 128).
Proof.
  set (s := image_of 1 [0; 77; 0; 128; 0; 0; 0; 0] [ATP; R1; R3]).
  apply (op_ATP_index_past_pool s R1 R3 (set_pc s 2) (set_pc s 3) 128 77);
    first [reflexivity | lia].
Defined.

(** ** IN and OUT *)

Lemma op_IN_unfold s w ch addr s1 s2 old :
  fetch s = Ok (ch, s1) →
  fetch s1 = Ok (addr, s2) →
  isnum addr = 0 →
  obj_read s addr = Ok old →
  ∃ s', op_IN s w = Ok (s', (getinp w ch).2)
      ∧ obj_read s' addr = Ok (match obj_cell (addr `div` 2) with
                               | InReg _ => (getinp w ch).1 `mod` 2 ^ 31
                               | InMem _ => u8 ((getinp w ch).1 `mod` 2 ^ 31)
                               end)
      ∧ fr s' = fr s.
Proof.
  intros Hf1 Hf2 Ha Hold.
  assert (Hold2 : obj_read s2 addr = Ok old).
  { by rewrite (fetch_obj_read _ _ _ _ Hf2), (fetch_obj_read _ _ _ _ Hf1). }
  unfold op_IN. rewrite Hf1; simpl. rewrite Hf2; simpl.
  destruct (getinp w ch) as [inp w1]; simpl.
  assert (Hv : obj_read s2 (num_ inp) = Ok (inp `mod` 2 ^ 31)).
  { rewrite obj_read_num by (by rewrite isnum_num_). by rewrite tonum_num_. }
  destruct (obj_write_ok s2 addr (num_ inp) _ old Ha Hv Hold2)
    as (s' & -> & Hget & _ & Hfr & _).
  exists s'. simpl. repeat split; try done.
  by rewrite Hfr, (fetch_fr _ _ _ Hf2), (fetch_fr _ _ _ Hf1).
Qed.

(** IN on the character or the number channel takes the next item [n] of
    the input and stores its low 31 bits in a register destination (its
    low byte in a pool cell); a negative number therefore arrives as
    [2^31 + n].  On a terminal the number channel prints a question mark
    first. *)
Theorem op_IN_reads s w ch addr s1 s2 old n rest :
  fetch s = Ok (ch, s1) →
  fetch s1 = Ok (addr, s2) →
  isnum addr = 0 →
  obj_read s addr = Ok old →
  ch = IO_CHR ∨ ch = IO_NUM →
  stdin w = n :: rest →
  ∃ s' w', op_IN s w = Ok (s', w')
      ∧ obj_read s' addr = Ok (match obj_cell (addr `div` 2) with
                               | InReg _ => n `mod` 2 ^ 31
                               | InMem _ => n `mod` 256
                               end)
      ∧ stdin w' = rest
      ∧ stdout w' = stdout w ++
          (if bool_decide (ch = IO_NUM) && tty w then [PutChar 63] else [])
      ∧ fr s' = fr s.
Proof.
  intros Hf1 Hf2 Ha Hold Hch Hin.
  destruct (op_IN_unfold s w ch addr s1 s2 old Hf1 Hf2 Ha Hold)
    as (s' & Hop & Hget & Hfr).
  assert (Hg : (getinp w ch).1 = u32 n
             ∧ stdin (getinp w ch).2 = rest
             ∧ stdout (getinp w ch).2 = stdout w ++
                 (if bool_decide (ch = IO_NUM) && tty w then [PutChar 63] else [])).
  { unfold getinp. destruct Hch as [-> | ->]; simpl.
    - rewrite Hin. simpl. by rewrite app_nil_r.
    - destruct (tty w); simpl; rewrite Hin; simpl; [done|]. by rewrite app_nil_r. }
  destruct Hg as (Hval & Hrest & Hout).
  exists s', (getinp w ch).2. rewrite Hget, Hval.
  repeat split; try done.
  destruct (obj_cell _); f_equal; mod_arith.
Qed.

Lemma op_IN_reads_witness :
  ∃ s' w', op_IN (image_of 1 (replicate 8 0) [IN; IO_NUM; R1])
             (mkWorld [-5; 8] [] true) = Ok (s', w')
      ∧ obj_read s' R1 = Ok (match obj_cell (R1 `div` 2) with
                             | InReg _ => (-5) `mod` 2 ^ 31
                             | InMem _ => (-5) `mod` 256
                             end)
      ∧ stdin w' = [8]
      ∧ stdout w' = [] ++
          (if bool_decide (IO_NUM = IO_NUM) && true then [PutChar 63] else [])
      ∧ fr s' = 0.
Proof.
  set (s := image_of 1 (replicate 8 0) [IN; IO_NUM; R1]).
  apply (op_IN_reads s (mkWorld [-5; 8] [] true) IO_NUM R1
           (set_pc s 2) (set_pc s 3) 0 (-5) [8]);
    first [reflexivity | by right].
Defined.

(** When there is nothing to read (the input is at its end, or the
    channel is neither the character nor the number channel) IN still
    writes: the end-of-file value of [getchar] arrives in a register as
    2^31 - 1 (255 in a pool cell), every other case stores 0.  The input
    is left as it is. *)
Theorem op_IN_nothing_to_read s w ch addr s1 s2 old :
  fetch s = Ok (ch, s1) →
  fetch s1 = Ok (addr, s2) →
  isnum addr = 0 →
  obj_read s addr = Ok old →
  stdin w = [] ∨ (ch ≠ IO_CHR ∧ ch ≠ IO_NUM) →
  ∃ s' w', op_IN s w = Ok (s', w')
      ∧ obj_read s' addr =
          Ok (if bool_decide (ch = IO_CHR) then
                match obj_cell (addr `div` 2) with
                | InReg _ => 2 ^ 31 - 1
                | InMem _ => 255
                end
              else 0)
      ∧ stdin w' = stdin w.
Proof.
  intros Hf1 Hf2 Ha Hold Hcase.
  destruct (op_IN_unfold s w ch addr s1 s2 old Hf1 Hf2 Ha Hold)
    as (s' & Hop & Hget & Hfr).
  assert (Hg : (getinp w ch).1 = (if bool_decide (ch = IO_CHR) then u32 EOF else 0)
             ∧ stdin (getinp w ch).2 = stdin w).
  { unfold getinp. repeat case_bool_decide; subst; simpl.
    - destruct Hcase as [Hnil | [? _]]; [|done]. by rewrite Hnil.
    - destruct Hcase as [Hnil | [_ ?]]; [|done].
      destruct (tty w); simpl; rewrite Hnil; simpl; by rewrite ?Hnil.
    - done. }
  destruct Hg as (Hval & Hin).
  exists s', (getinp w ch).2. rewrite Hget, Hval.
  repeat split; try done.
  case_bool_decide; destruct (obj_cell _); done.
Qed.

Lemma op_IN_nothing_to_read_witness :
  ∃ s' w', op_IN (image_of 1 (replicate 8 0) [IN; IO_CHR; R1]) quiet = Ok (s', w')
      ∧ obj_read s' R1 =
          Ok (if bool_decide (IO_CHR = IO_CHR) then
                match obj_cell (R1 `div` 2) with
                | InReg _ => 2 ^ 31 - 1
                | InMem _ => 255
                end
              else 0)
      ∧ stdin w' = stdin quiet.
Proof.
  set (s := image_of 1 (replicate 8 0) [IN; IO_CHR; R1]).
  apply (op_IN_nothing_to_read s quiet IO_CHR R1 (set_pc s 2) (set_pc s 3) 0);
    first [reflexivity | by left].
Defined.

(** OUT leaves the machine alone but for the counter and adds at most
    one event to the output: the low byte of the value on the character
    channel, the value read as a signed [int] on the number channel, and
    nothing at all on any other channel.  It never touches the input. *)
Theorem op_OUT_spec s w ch addr s1 s2 v :
  fetch s = Ok (ch, s1) →
  fetch s1 = Ok (addr, s2) →
  obj_read s addr = Ok v →
  ∃ w', op_OUT s w = Ok (s2, w')
      ∧ stdin w' = stdin w
      ∧ tty w' = tty w
      ∧ stdout w' = stdout w ++
          (if bool_decide (ch = IO_CHR) then [PutChar (v `mod` 256)]
           else if bool_decide (ch = IO_NUM) then [PrintNum (s32 v)]
           else []).
Proof.
  intros Hf1 Hf2 Hv.
  assert (Hv2 : obj_read s2 addr = Ok v).
  { by rewrite (fetch_obj_read _ _ _ _ Hf2), (fetch_obj_read _ _ _ _ Hf1). }
  unfold op_OUT. rewrite Hf1; simpl. rewrite Hf2; simpl. rewrite Hv2; simpl.
  eexists. split; [reflexivity|]. unfold putout.
  repeat case_bool_decide; simpl; by rewrite ?app_nil_r.
Qed.

Lemma op_OUT_spec_witness :
  let s := image_of 1 [0; 321; 0; 0; 0; 0; 0; 0] [OUT; IO_CHR; R1] in
  ∃ w', op_OUT s quiet = Ok (set_pc s 3, w')
      ∧ stdin w' = stdin quiet
      ∧ tty w' = tty quiet
      ∧ stdout w' = stdout quiet ++
          (if bool_decide (IO_CHR = IO_CHR) then [PutChar (321 `mod` 256)]
           else if bool_decide (IO_CHR = IO_NUM) then [PrintNum (s32 321)]
           else []).
Proof.
  intros s.
  apply (op_OUT_spec s quiet IO_CHR R1 (set_pc s 2) (set_pc s 3) 321); reflexivity.
Defined.

(** ** SUB followed by JIF: the counting loop of the boot code *)

Lemma op_SUB_fr s s' expr addr s1 s2 old delta :
  fetch s = Ok (expr, s1) →
  fetch s1 = Ok (addr, s2) →
  obj_read s addr = Ok old →
  obj_read s expr = Ok delta →
  op_SUB s = Ok s' →
  fr s' = fr (setzf (setcf s2 (bool_decide (u32 (old - delta) > old)))
                    (bool_decide (u32 (old - delta) = 0))).
Proof.
  intros Hf1 Hf2 Hold Hdelta. unfold op_SUB.
  rewrite Hf1; simpl. rewrite Hf2; simpl.
  rewrite !(fetch_obj_read _ _ _ _ Hf2), !(fetch_obj_read _ _ _ _ Hf1).
  rewrite Hold; simpl. rewrite Hdelta; simpl.
  apply obj_write_fr.
Qed.

(** After a SUB of two 32-bit values, a JIF on the ZERO flag jumps
    exactly when the two values differed, and falls through to the next
    instruction when they were equal: together they are "subtract and
    branch if not zero". *)
Theorem SUB_then_JIF_ZERO s s' expr addr s1 s2 old delta t t1 t2 tgt v :
  fetch s = Ok (expr, s1) →
  fetch s1 = Ok (addr, s2) →
  obj_read s addr = Ok old →
  obj_read s expr = Ok delta →
  0 ≤ old < 2 ^ 32 →
  0 ≤ delta < 2 ^ 32 →
  op_SUB s = Ok s' →
  fr t = fr s' →
  fetch t = Ok (FL_ZERO, t1) →
  fetch t1 = Ok (tgt, t2) →
  obj_read t tgt = Ok v →
  op_JIF t = Ok (if bool_decide (old = delta) then t2 else set_pc t2 v).
Proof.
  intros Hf1 Hf2 Hold Hdelta Ho Hd Hsub Hfr Ht1 Ht2 Hv.
  rewrite (op_SUB_fr _ _ _ _ _ _ _ _ Hf1 Hf2 Hold Hdelta Hsub) in Hfr.
  unfold op_JIF. rewrite Ht1; simpl. rewrite Ht2; simpl.
  assert (Hflag : isflag t2 FL_ZERO = Z.b2z (bool_decide (old = delta))).
  { unfold isflag. rewrite (fetch_fr _ _ _ Ht2), (fetch_fr _ _ _ Ht1), Hfr.
    match goal with |- Z.land (fr ?x) _ = _ => fold (isflag x FL_ZERO) end.
    rewrite isflag_zero_after. f_equal.
    apply bool_decide_ext. mod_arith. }
  rewrite Hflag.
  rewrite (fetch_obj_read _ _ _ _ Ht2), (fetch_obj_read _ _ _ _ Ht1), Hv.
  by case_bool_decide.
Qed.

Lemma SUB_then_JIF_ZERO_witness :
  let s := image_of 1 [0; 0; 2; 0; 15; 0; 0; 0] [SUB; N1; R2; JIF; FL_ZERO; R4] in
  let s' := image_of 3 [0; 0; 1; 0; 15; 0; 0; 0] [SUB; N1; R2; JIF; FL_ZERO; R4] in
  op_JIF (set_pc s' 4)
  = Ok (if bool_decide (2 = 1) then set_pc s' 6 else set_pc (set_pc s' 6) 15).
Proof.
  intros s s'.
  apply (SUB_then_JIF_ZERO s s' N1 R2 (set_pc s 2) (set_pc s 3) 2 1
           (set_pc s' 4) (set_pc s' 5) (set_pc s' 6) R4 15);
    first [reflexivity | lia].
Defined.

(** ** One iteration, case by case *)

Lemma step_executed s w s' w' st :
  step s w = Ok (s', w', st) →
  ∃ b s1, fetch s = Ok (b, s1) ∧ executed (u8 b) s1 w s' w' st.
Proof.
  intros Hstep. unfold step in Hstep. inv_bind.
  match goal with Hf : fetch s = Ok (?b, ?s1) |- _ => exists b, s1 end.
  split; [done|].
  match goal with Ho : op ?i = Ok _ |- _ =>
    pose proof (op_viewP i ltac:(pose proof (u8_range z); lia)) as Hv;
    rewrite Ho in Hv; clear Ho
  end.
  inversion Hv; subst; unfold no_io, op_SUS in *; inv_bind;
    match goal with
    | H : _ = u8 _ |- _ => rewrite <-H
    | _ => idtac
    end;
    try (by constructor).
Qed.

(** ** Where the loop stops *)

Lemma step_halted_inv s w s' w' :
  step s w = Ok (s', w', HALTED) →
  ∃ b, fetch s = Ok (b, s') ∧ w' = w ∧ (u8 b = SUS ∨ 11 ≤ u8 b ≤ 31).
Proof.
  intros (b & s1 & Hf & Hex)%step_executed.
  exists b. inversion Hex; subst; eauto.
Qed.

(** When [resume_core] returns, the last iteration fetched SUS or an
    opcode 11..31 and did nothing but move the counter past it: the final
    machine is the one before that fetch with the counter advanced, and the
    console is as that iteration found it. *)
Theorem resume_core_stops_at fuel s w s' w' :
  resume_core fuel s w = Some (Ok (s', w')) →
  ∃ s1 b, reaches s w s1 w'
    ∧ fetch s1 = Ok (b, s')
    ∧ (u8 b = SUS ∨ 11 ≤ u8 b ≤ 31).
Proof.
  assert (Hgen : ∀ s0 w0, reaches s0 w0 s w →
            resume_core fuel s w = Some (Ok (s', w')) →
            ∃ s1 b, reaches s0 w0 s1 w' ∧ fetch s1 = Ok (b, s')
              ∧ (u8 b = SUS ∨ 11 ≤ u8 b ≤ 31)).
  { revert s w. induction fuel as [|fuel IH]; intros s w s0 w0 Hr; [discriminate|].
    simpl. destruct (step s w) as [[[s1 w1] st]|e] eqn:Hstep; [|discriminate].
    destruct st.
    - apply IH. by eapply reaches_step.
    - intros ?; simplify_eq.
      destruct (step_halted_inv _ _ _ _ Hstep) as (b & Hf & -> & Hb).
      by exists s, b. }
  apply Hgen. constructor.
Qed.

Lemma resume_core_stops_at_witness :
  ∃ s1 b,
    reaches (image_of 0 (replicate 8 0) [MOV; num_ 9; R0; SUS]) quiet s1 quiet
    ∧ fetch s1 = Ok (b, image_of 4 [9; 0; 0; 0; 0; 0; 0; 0] [MOV; num_ 9; R0; SUS])
    ∧ (u8 b = SUS ∨ 11 ≤ u8 b ≤ 31).
Proof.
  apply (resume_core_stops_at 5 (image_of 0 (replicate 8 0) [MOV; num_ 9; R0; SUS])
           quiet (image_of 4 [9; 0; 0; 0; 0; 0; 0; 0] [MOV; num_ 9; R0; SUS]) quiet).
  reflexivity.
Defined.

(** ** The console during a run *)

Lemma io_extends_refl w : io_extends w w.
Proof. by repeat split. Qed.

Lemma io_extends_trans w1 w2 w3 :
  io_extends w1 w2 → io_extends w2 w3 → io_extends w1 w3.
Proof.
  intros (Ho1 & Hi1 & Ht1) (Ho2 & Hi2 & Ht2). repeat split.
  - by etrans.
  - by etrans.
  - congruence.
Qed.

Lemma getinp_io w ch : io_extends w (getinp w ch).2.
Proof.
  unfold getinp. repeat case_bool_decide; try apply io_extends_refl.
  - destruct (stdin w) as [|c rest] eqn:Hin; simpl; [apply io_extends_refl|].
    repeat split; simpl; [done | rewrite Hin; by exists [c]].
  - destruct (tty w) eqn:Htty; simpl;
      destruct (stdin w) as [|c rest] eqn:Hin; simpl;
      repeat split; simpl; rewrite ?Hin, ?Htty;
      first [done | by eexists | by exists [c]].
Qed.

Lemma putout_io w ch n : io_extends w (putout w ch n).
Proof.
  unfold putout. repeat case_bool_decide; try apply io_extends_refl;
    repeat split; simpl; first [done | by eexists].
Qed.

Lemma executed_io i s w s' w' st : executed i s w s' w' st → io_extends w w'.
Proof.
  destruct 1; try apply io_extends_refl.
  - match goal with H : op_IN _ _ = Ok _ |- _ => unfold op_IN in H; inv_bind end.
    match goal with H : context [getinp ?w ?ch] |- _ =>
      pose proof (getinp_io w ch); destruct (getinp w ch) end.
    inv_bind. done.
  - match goal with H : op_OUT _ _ = Ok _ |- _ => unfold op_OUT in H; inv_bind end.
    apply putout_io.
Qed.

(** During a run the output only grows and the input is only consumed
    from the front: the output at any later point extends the earlier
    output, the remaining input is a tail of the earlier input, and the
    terminal flag is never changed. *)
Theorem run_io_extends s w s' w' :
  reaches s w s' w' →
  stdout w `prefix_of` stdout w' ∧ stdin w' `suffix_of` stdin w ∧ tty w' = tty w.
Proof.
  intros Hrun. change (io_extends w w').
  induction Hrun as [|s w s1 w1 s2 w2 st _ IH Hstep]; [apply io_extends_refl|].
  eapply io_extends_trans; [exact IH|].
  destruct (step_executed _ _ _ _ _ Hstep) as (b & t & _ & Hex).
  by eapply executed_io.
Qed.

Lemma run_io_extends_witness :
  let s := image_of 0 (replicate 8 0) [IN; IO_CHR; R1; OUT; IO_CHR; R1] in
  stdout (mkWorld [65; 66] [] false) `prefix_of` stdout (mkWorld [66] [PutChar 65] false)
  ∧ stdin (mkWorld [66] [PutChar 65] false) `suffix_of` stdin (mkWorld [65; 66] [] false)
  ∧ tty (mkWorld [66] [PutChar 65] false) = tty (mkWorld [65; 66] [] false).
Proof.
  intros s.
  apply (run_io_extends s (mkWorld [65; 66] [] false)
           (image_of 6 [0; 65; 0; 0; 0; 0; 0; 0] [IN; IO_CHR; R1; OUT; IO_CHR; R1])
           (mkWorld [66] [PutChar 65] false)).
  eapply reaches_step; [eapply reaches_step; [apply reaches_here|]|]; reflexivity.
Defined.

(** ** The sizes of the arrays during a run *)

Lemma fetch_shape s b s' : fetch s = Ok (b, s') → same_shape s s'.
Proof.
  intros Hf. unfold same_shape.
  by rewrite (fetch_r _ _ _ Hf), (fetch_pmem _ _ _ Hf), (fetch_pmemsize _ _ _ Hf).
Qed.

Lemma cell_set_shape s k v s' : cell_set s k v = Ok s' → same_shape s s'.
Proof.
  destruct k; simpl; unfold reg_set, mem_set; destruct (at_index _ _);
    intros ?; simplify_eq; unfold same_shape; simpl;
    by rewrite ?length_insert.
Qed.

Lemma obj_write_shape s a e s' : obj_write s a e = Ok s' → same_shape s s'.
Proof.
  unfold obj_write. case_bool_decide; [discriminate|].
  intros Hw. inv_bind. by eapply cell_set_shape.
Qed.

Ltac shape_chain :=
  repeat match goal with
  | H : fetch _ = Ok _ |- _ => apply fetch_shape in H
  | H : obj_write _ _ _ = Ok _ |- _ => apply obj_write_shape in H
  end;
  unfold same_shape in *; simpl in *; intuition congruence.

Lemma executed_shape i s w s' w' st : executed i s w s' w' st → same_shape s s'.
Proof.
  destruct 1 as [ | ? ? ? H | ? ? ? H | ? ? ? H | ? ? ? H | ? ? ? H | ? ? ? H
                | ? ? ? ? H | ? ? ? ? H | ? ? ? H | ? ? ? H | ];
    try done;
    unfold op_MOV, op_ADD, op_SUB, op_JIF, op_JMR, op_MPC, op_IN, op_OUT,
      op_AT, op_ATP in H;
    inv_bind; try destruct (getinp _ _); simpl in *; inv_bind;
    repeat (case_bool_decide; try discriminate); inv_bind; shape_chain.
Qed.

(** A run never resizes the machine: the register array, the pool and
    the recorded pool size are the same at every point of it. *)
Theorem run_keeps_shape s w s' w' :
  reaches s w s' w' →
  length (r s') = length (r s)
  ∧ length (pmem s') = length (pmem s)
  ∧ pmemsize s' = pmemsize s.
Proof.
  intros Hrun. change (same_shape s s').
  induction Hrun as [|s w s1 w1 s2 w2 st _ IH Hstep]; [done|].
  destruct (step_executed _ _ _ _ _ Hstep) as (b & t & Hf & Hex).
  apply fetch_shape in Hf. apply executed_shape in Hex.
  unfold same_shape in *. intuition congruence.
Qed.

Lemma run_keeps_shape_witness :
  let s := image_of 0 (replicate 8 0) [MOV; num_ 9; 40] in
  let s' := mkPU 3 0 (replicate 8 0) (<[20%nat := 9]> (pmem s)) 128 in
  length (r s') = length (r s)
  ∧ length (pmem s') = length (pmem s)
  ∧ pmemsize s' = pmemsize s.
Proof.
  intros s s'. apply (run_keeps_shape s quiet s' quiet).
  eapply reaches_step; [apply reaches_here | reflexivity].
Defined.

(** ** Registers carry 31 bits *)

Lemma wf31_setflag s e f : wf31 s → wf31 (setflag s e f).
Proof. by destruct e. Qed.

Lemma fetch_wf31 s b s' : wf31 s → fetch s = Ok (b, s') → wf31 s' ∧ 0 ≤ b < 256.
Proof.
  intros Hwf Hf. split.
  - unfold wf31, regs_u31, pool_bytes.
    by rewrite (fetch_r _ _ _ Hf), (fetch_pmem _ _ _ Hf).
  - destruct Hwf as [_ Hp]. apply fetch_byte in Hf.
    by apply (Forall_lookup_1 _ _ _ _ Hp Hf).
Qed.

Lemma cell_get_range31 s k v : wf31 s → cell_get s k = Ok v → 0 ≤ v < 2 ^ 31.
Proof.
  intros [[_ Hr] Hp]. destruct k as [i|i]; simpl;
    unfold reg_get, mem_get; destruct (at_index _ i) as [x|] eqn:Hx;
    intros ?; simplify_eq; apply at_index_Some in Hx as [_ Hx].
  - by apply (Forall_lookup_1 _ _ _ _ Hr Hx).
  - pose proof (Forall_lookup_1 _ _ _ _ Hp Hx) as Hb. simpl in Hb. lia.
Qed.

Lemma obj_read_range31 s e v :
  wf31 s → 0 ≤ e < 2 ^ 32 → obj_read s e = Ok v → 0 ≤ v < 2 ^ 31.
Proof.
  intros Hwf He. unfold obj_read. case_bool_decide.
  - intros ?; simplify_eq. by apply tonum_range.
  - by apply cell_get_range31.
Qed.

Lemma cell_set_wf31 s k v s' :
  wf31 s → 0 ≤ v < 2 ^ 31 → cell_set s k v = Ok s' → wf31 s'.
Proof.
  intros [[Hlen Hr] Hp] Hv. destruct k as [i|i]; simpl;
    unfold reg_set, mem_set; destruct (at_index _ i);
    intros ?; simplify_eq; (split; [split|]); simpl; try done.
  - by rewrite length_insert.
  - by apply Forall_insert.
  - apply Forall_insert; [done|]. apply u8_range.
Qed.

Lemma obj_write_wf31 s a e s' :
  wf31 s → 0 ≤ e < 2 ^ 32 → obj_write s a e = Ok s' → wf31 s'.
Proof.
  intros Hwf He. unfold obj_write. case_bool_decide; [discriminate|].
  intros Hw. inv_bind. eapply cell_set_wf31; [done| |done].
  by eapply obj_read_range31.
Qed.

Ltac wf31_fetches :=
  repeat match goal with
  | Hwf : wf31 ?s, H : fetch ?s = Ok (_, _) |- _ =>
      destruct (fetch_wf31 _ _ _ Hwf H); clear H
  end.

Ltac wf31_finish :=
  first
    [ assumption
    | match goal with
      | H : obj_write _ _ _ = Ok _ |- _ =>
          eapply obj_write_wf31; [| |exact H];
          [repeat apply wf31_setflag; assumption
          |first [apply num_range | apply addr_range | lia]]
      end ].

Lemma executed_wf31 i s w s' w' st : wf31 s → executed i s w s' w' st → wf31 s'.
Proof.
  intros Hwf.
  destruct 1 as [ | ? ? ? H | ? ? ? H | ? ? ? H | ? ? ? H | ? ? ? H | ? ? ? H
                | ? ? ? ? H | ? ? ? ? H | ? ? ? H | ? ? ? H | ];
    try done;
    unfold op_MOV, op_ADD, op_SUB, op_JIF, op_JMR, op_MPC, op_IN, op_OUT,
      op_AT, op_ATP in H;
    inv_bind; try destruct (getinp _ _); simpl in *; inv_bind;
    repeat (case_bool_decide; try discriminate); inv_bind; wf31_fetches;
    wf31_finish.
Qed.

Lemma step_wf31 s w s' w' st : wf31 s → step s w = Ok (s', w', st) → wf31 s'.
Proof.
  intros Hwf (b & s1 & Hf & Hex)%step_executed.
  destruct (fetch_wf31 _ _ _ Hwf Hf) as [Hwf1 _]. by eapply executed_wf31.
Qed.

(** Every value that reaches a register has passed through the literal
    encoding, come from a pool byte or been copied from another register:
    in a run that starts with all registers below 2^31 (as after a load,
    when they are 0) they stay below 2^31, and the pool cells stay bytes. *)
Theorem registers_stay_u31 s w s' w' :
  regs_u31 s → pool_bytes s → reaches s w s' w' → regs_u31 s' ∧ pool_bytes s'.
Proof.
  intros Hr Hp Hrun. change (wf31 s'). assert (Hwf : wf31 s) by done.
  clear Hr Hp. induction Hrun as [|s w s1 w1 s2 w2 st _ IH Hstep]; [done|].
  eapply step_wf31; [|exact Hstep]. by apply IH.
Qed.

Lemma registers_stay_u31_witness :
  let s := mkPU 0 0 (replicate 8 0) MEM 128 in
  let s' := mkPU 3 0 [0; 2147483643; 0; 0; 0; 0; 0; 0] MEM 128 in
  regs_u31 s' ∧ pool_bytes s'.
Proof.
  intros s s'.
  apply (registers_stay_u31 s (mkWorld [-5] [] false) s' quiet).
  - split; [reflexivity|]. by apply (bool_decide_unpack _).
  - by apply (bool_decide_unpack _).
  - eapply reaches_step; [apply reaches_here | reflexivity].
Defined.

(** With registers below 2^31 the 32-bit sum of ADD cannot wrap, so the
    test [new < old] never holds: an ADD that returns leaves CARRY clear. *)
Theorem op_ADD_never_carries s s' :
  regs_u31 s → pool_bytes s → op_ADD s = Ok s' → isflag s' FL_CARRY = 0.
Proof.
  intros Hr Hp Hadd. assert (Hwf : wf31 s) by done. clear Hr Hp.
  unfold op_ADD in Hadd. inv_bind.
  repeat match goal with
  | Hw : wf31 ?s, H : fetch ?s = Ok (_, _) |- _ =>
      destruct (fetch_wf31 _ _ _ Hw H); clear H
  end.
  repeat match goal with
  | H : obj_read _ _ = Ok _ |- _ =>
      apply obj_read_range31 in H; [|assumption|lia]
  end.
  apply obj_write_fr in Hadd. unfold isflag. rewrite Hadd.
  match goal with |- Z.land (fr ?x) _ = _ => fold (isflag x FL_CARRY) end.
  rewrite isflag_carry_after, bool_decide_false; [done|].
  rewrite u32_small; lia.
Qed.

Lemma op_ADD_never_carries_witness :
  isflag (image_of 3 [2147483646; 2147483647; 0; 0; 0; 0; 0; 0] [ADD; R1; R0]) FL_CARRY = 0.
Proof.
  apply (op_ADD_never_carries
           (image_of 1 [2147483647; 2147483647; 0; 0; 0; 0; 0; 0] [ADD; R1; R0])).
  - split; [reflexivity|]. by apply (bool_decide_unpack _).
  - by apply (bool_decide_unpack _).
  - reflexivity.
Defined.

(** ** How far the counter moves *)

Lemma fetch_pc128 s b s' :
  fetch s = Ok (b, s') → length (pmem s) = 128%nat →
  pc s' = pc s + 1 ∧ length (pmem s') = 128%nat.
Proof.
  intros Hf Hlen. rewrite (fetch_pmem _ _ _ Hf). split; [|done].
  unfold fetch, mem_get in Hf.
  destruct (at_index _ _) as [x|] eqn:Hx; [|discriminate].
  apply at_index_Some in Hx as [H0 Hx]. apply lookup_lt_Some in Hx.
  simpl in Hf. simplify_eq. simpl. rewrite u32_small; lia.
Qed.

Lemma obj_write_pc s a e s' : obj_write s a e = Ok s' → pc s' = pc s.
Proof.
  unfold obj_write. case_bool_decide; [discriminate|].
  intros Hw. inv_bind.
  by destruct (cell_set_inv _ _ _ _ Hw) as (? & _ & _ & ? & _).
Qed.

Ltac pc_chain :=
  repeat match goal with
  | Hl : length (pmem ?s) = 128%nat, H : fetch ?s = Ok (_, _) |- _ =>
      destruct (fetch_pc128 _ _ _ H Hl); clear H
  | H : obj_write _ _ _ = Ok _ |- _ => apply obj_write_pc in H
  end;
  simpl in *; lia.

Lemma arity_null i : 11 ≤ i ≤ 31 → arity i = 0.
Proof.
  intros. unfold arity, SUS, JMR, MPC.
  rewrite bool_decide_false by lia. rewrite bool_decide_false by lia.
  by rewrite bool_decide_false by lia.
Qed.

Lemma executed_pc i s w s' w' st :
  executed i s w s' w' st →
  length (pmem s) = 128%nat →
  i ≠ JIF → i ≠ JMR →
  pc s' = pc s + arity i.
Proof.
  destruct 1 as [ | ? ? ? H | ? ? ? H | ? ? ? H | ? ? ? H | ? ? ? H | ? ? ? H
                | ? ? ? ? H | ? ? ? ? H | ? ? ? H | ? ? ? H | ? ? ? Hi ];
    intros Hlen HJ1 HJ2; try done;
    try (rewrite arity_null by done; lia);
    try (change (arity SUS) with 0; lia);
    unfold op_MOV, op_ADD, op_SUB, op_MPC, op_IN, op_OUT, op_AT, op_ATP in H;
    inv_bind; try destruct (getinp _ _); simpl in *; inv_bind;
    repeat (case_bool_decide; try discriminate); inv_bind;
    match goal with
    | |- context [arity ?i] =>
        let a := eval vm_compute in (arity i) in change (arity i) with a
    end;
    pc_chain.
Qed.

(** Every opcode but the two jumps leaves the counter just past its own
    bytes: one iteration on the 128-byte pool moves it by 1 for SUS and for
    an opcode without handler, by 2 for MPC and by 3 for MOV, ADD, SUB, IN,
    OUT, AT and ATP. *)
Theorem step_advances_pc s w b s1 s' w' st :
  length (pmem s) = 128%nat →
  fetch s = Ok (b, s1) →
  0 ≤ b ≤ 255 →
  b ≠ JIF → b ≠ JMR →
  step s w = Ok (s', w', st) →
  pc s' = pc s + 1 + arity b.
Proof.
  intros Hlen Hf Hb HJ1 HJ2 (b' & t & Hf' & Hex)%step_executed.
  rewrite Hf in Hf'. injection Hf' as <- <-.
  rewrite u8_small in Hex by lia.
  destruct (fetch_pc128 _ _ _ Hf Hlen) as [Hpc Hlen1].
  rewrite (executed_pc _ _ _ _ _ _ Hex Hlen1 HJ1 HJ2). lia.
Qed.

Lemma step_advances_pc_witness :
  let s := image_of 0 (replicate 8 0) [MPC; R4] in
  pc (image_of 2 [0; 0; 0; 0; 2; 0; 0; 0] [MPC; R4]) = pc s + 1 + arity MPC.
Proof.
  intros s.
  apply (step_advances_pc s quiet MPC (set_pc s 1)
           (image_of 2 [0; 0; 0; 0; 2; 0; 0; 0] [MPC; R4]) quiet RUNNING);
    first [reflexivity | unfold MPC, JIF, JMR; lia].
Defined.

(** ** What the loader returns *)

Lemma read_body_enough fuel len rest buf :
  0 < len →
  len ≤ Z.of_nat (length rest) →
  length buf = Z.to_nat len →
  read_body (S fuel) len rest buf = (take (Z.to_nat len) rest, true).
Proof.
  intros Hlen Hrest Hbuf. simpl.
  rewrite bool_decide_true by done.
  rewrite length_take_le, Z2Nat.id by lia.
  rewrite bool_decide_false by lia.
  rewrite Z.sub_diag, read_body_done.
  rewrite (drop_ge buf) by lia. by rewrite app_nil_r.
Qed.

Lemma read_body_result fuel len rest buf mem :
  0 < len →
  length buf = Z.to_nat len →
  read_body fuel len rest buf = (mem, true) →
  mem = take (Z.to_nat len) rest ∧ len ≤ Z.of_nat (length rest).
Proof.
  intros Hlen Hbuf Hread.
  pose proof (read_body_Some _ _ _ _ _ Hlen Hread) as Hrest.
  destruct fuel as [|fuel].
  - simpl in Hread. by rewrite bool_decide_false in Hread by lia.
  - rewrite read_body_enough in Hread by done. by simplify_eq.
Qed.

(** An image that passes the tests loads: the machine gets the counter
    of the header and the 128 bytes that follow the header as its pool.
    The size field of the header, any bytes after the pool and the
    previous contents of the fresh block play no part, and the registers
    and the flags register of the core that is loaded into are not
    assigned. *)
Theorem load_image_accepts s0 name fs junk bytes :
  fs !! name = Some bytes →
  sizeof_h + MEM_SIZE ≤ Z.of_nat (length bytes) →
  h_magic (header_of_bytes (take 16 bytes)) = MAGIC →
  h_memsize (header_of_bytes (take 16 bytes)) = MEM_SIZE →
  h_pc (header_of_bytes (take 16 bytes)) < MEM_SIZE →
  load_image s0 (Some name) fs junk
  = Loaded (mkPU (h_pc (header_of_bytes (take 16 bytes))) (fr s0) (r s0)
                 (take 128 (drop 16 bytes)) MEM_SIZE).
Proof.
  intros Hfile Hlen Hmagic Hsize Hpc. unfold load_image. rewrite Hfile.
  unfold sizeof_h, MEM_SIZE in *.
  rewrite bool_decide_false by (rewrite length_take; lia).
  rewrite bool_decide_false by (intros Hne; by apply Hne).
  rewrite Hsize.
  rewrite bool_decide_false by (intros Hne; apply Hne; lia).
  rewrite bool_decide_false by (intros Hne; by apply Hne).
  rewrite bool_decide_false by lia.
  change (Z.to_nat 128) with (S 127).
  rewrite read_body_enough; [done | lia | rewrite length_drop; lia |].
  apply length_fresh_block.
Qed.

Lemma load_image_accepts_witness :
  let bytes := header_bytes (mkHeader MAGIC 7 128 5) ++ MEM ++ [1; 2; 3] in
  load_image (mkPU 9 3 [1; 2; 3; 4; 5; 6; 7; 8] [] 0) (Some "core.img")
    {[ "core.img" := bytes ]} [9; 9]
  = Loaded (mkPU (h_pc (header_of_bytes (take 16 bytes))) 3 [1; 2; 3; 4; 5; 6; 7; 8]
                 (take 128 (drop 16 bytes)) MEM_SIZE).
Proof.
  intros bytes.
  apply (load_image_accepts (mkPU 9 3 [1; 2; 3; 4; 5; 6; 7; 8] [] 0) "core.img"
           {[ "core.img" := bytes ]} [9; 9] bytes);
    first [reflexivity | by vm_compute].
Defined.

Lemma load_image_inv s0 lf fs junk s :
  load_image s0 lf fs junk = Loaded s →
  length (pmem s) = 128%nat ∧ pmemsize s = MEM_SIZE ∧ pc s < MEM_SIZE
  ∧ r s = r s0 ∧ fr s = fr s0
  ∧ (lf = None ∧ pc s = 0 ∧ pmem s = MEM
     ∨ ∃ name bytes, lf = Some name ∧ fs !! name = Some bytes
         ∧ pc s = h_pc (header_of_bytes (take 16 bytes))
         ∧ pmem s = take 128 (drop 16 bytes)).
Proof.
  unfold load_image. destruct lf as [name|].
  - destruct (fs !! name) as [bytes|] eqn:Hfile; [|discriminate].
    repeat (case_bool_decide; try discriminate).
    destruct (read_body _ _ _ _) as [mem [|]] eqn:Hread; [|discriminate].
    intros Heq; injection Heq as <-.
    assert (Hsize : h_memsize (header_of_bytes (take 16 bytes)) = MEM_SIZE) by lia.
    rewrite Hsize in *. unfold MEM_SIZE in *.
    apply read_body_result in Hread as [-> Hrest];
      [|lia|apply length_fresh_block].
    set (hp := h_pc (header_of_bytes (take 16 bytes))) in *.
    cbn [pc fr r pmem pmemsize]. repeat split; try done.
    + rewrite length_take. lia.
    + change (hp < 128). lia.
    + right. by exists name, bytes.
  - intros ?; simplify_eq. simpl. repeat split; try done.
    left. done.
Qed.

(** Whatever [load_image] loads, from a file of bytes or from the
    built-in image, is ready to run: the pool has 128 byte cells, the
    counter points into it, and the first fetch succeeds. *)
Theorem loaded_machine_fetches s0 lf fs junk s :
  (∀ name bytes, fs !! name = Some bytes → Forall (λ b, 0 ≤ b < 256) bytes) →
  load_image s0 lf fs junk = Loaded s →
  length (pmem s) = 128%nat
  ∧ pool_bytes s
  ∧ 0 ≤ pc s < MEM_SIZE
  ∧ ∃ b, fetch s = Ok (b, set_pc s (pc s + 1)).
Proof.
  intros Hbytes Hload.
  destruct (load_image_inv _ _ _ _ _ Hload)
    as (Hlen & Hsz & Hpc & _ & _ & Hfrom).
  assert (Hpool : pool_bytes s ∧ 0 ≤ pc s).
  { destruct Hfrom as [(_ & -> & Hm) | (name & bytes & _ & Hfile & -> & Hm)];
      unfold pool_bytes; rewrite Hm.
    - split; [|done]. by apply (bool_decide_unpack _).
    - pose proof (Hbytes _ _ Hfile) as Hall. split.
      + by apply Forall_take, Forall_drop.
      + unfold header_of_bytes; simpl. unfold get_u32.
        apply little_endian_to_Z_bound; [lia|].
        repeat first [apply Forall_take | apply Forall_drop]. done. }
  destruct Hpool as [Hpool H0]. unfold MEM_SIZE in *.
  repeat split; try done.
  destruct (lookup_lt_is_Some_2 (pmem s) (Z.to_nat (pc s))) as [b Hb]; [lia|].
  exists b. unfold fetch, mem_get, at_index.
  rewrite bool_decide_true by done. rewrite Hb. simpl.
  by rewrite u32_small by lia.
Qed.

Lemma loaded_machine_fetches_witness :
  let s := mkPU 0 0 (replicate 8 0) MEM 128 in
  length (pmem s) = 128%nat
  ∧ pool_bytes s
  ∧ 0 ≤ pc s < MEM_SIZE
  ∧ ∃ b, fetch s = Ok (b, set_pc s (pc s + 1)).
Proof.
  intros s.
  apply (loaded_machine_fetches Core1 None ∅ [] s); [|reflexivity].
  intros name bytes Hfile. by rewrite lookup_empty in Hfile.
Defined.

(** ** What [save_image] writes *)

(** When the name is free and [open] creates it, the saved image is 144
    bytes long: the four header words in little endian order (the magic
    number first, as 17 20 00 00 in hexadecimal), then the pool.  The size
    word is 144, so it counts the header as well as the pool. *)
Theorem save_image_layout s name creat fs :
  fs !! name = None →
  creat name = true →
  pmemsize s = MEM_SIZE →
  length (pmem s) = 128%nat →
  0 ≤ pc s < 2 ^ 32 →
  ∃ bytes, save_image s (Some name) creat fs !! name = Some bytes
    ∧ length bytes = 144%nat
    ∧ take 4 bytes = [23; 32; 0; 0]
    ∧ header_of_bytes (take 16 bytes) = mkHeader MAGIC 144 MEM_SIZE (pc s)
    ∧ drop 16 bytes = pmem s.
Proof.
  intros Hfree Hcreat Hsize Hlen Hpc. unfold save_image.
  rewrite Hfree, Hcreat, Hsize.
  rewrite lookup_insert_eq. eexists. split; [reflexivity|].
  cbn [h_memsize]. rewrite bool_decide_true by (unfold MEM_SIZE; lia).
  rewrite (take_ge (pmem s)) by (unfold MEM_SIZE; lia).
  change (u32 (sizeof_h + MEM_SIZE)) with 144.
  set (h := mkHeader MAGIC 144 MEM_SIZE (pc s)).
  split; [|split; [|split]].
  - rewrite length_app, length_header_bytes. lia.
  - unfold header_bytes. rewrite <-!app_assoc.
    destruct (put_u32_shape (h_magic h)) as (a & b & c & d & E).
    rewrite E. simpl. rewrite <-E. by vm_compute.
  - rewrite take_app_length' by (by rewrite length_header_bytes).
    subst h. apply header_round_trip; unfold MAGIC, MEM_SIZE; lia.
  - by rewrite drop_app_length' by (by rewrite length_header_bytes).
Qed.

Lemma save_image_layout_witness :
  ∃ bytes, save_image (mkPU 7 3 [1; 2; 3; 4; 5; 6; 7; 8] MEM 128) (Some "core.img")
                        (λ _, true) ∅
             !! "core.img" = Some bytes
    ∧ length bytes = 144%nat
    ∧ take 4 bytes = [23; 32; 0; 0]
    ∧ header_of_bytes (take 16 bytes) = mkHeader MAGIC 144 MEM_SIZE 7
    ∧ drop 16 bytes = MEM.
Proof.
  apply (save_image_layout (mkPU 7 3 [1; 2; 3; 4; 5; 6; 7; 8] MEM 128) "core.img"
           (λ _, true) ∅);
    first [reflexivity | simpl; lia].
Defined.

(** Saving never changes a file that exists: after [save_image] every
    name holds what it held before, except that the name asked for holds
    the new image when it was free and [open] could create it. *)
Theorem save_image_keeps_files s filename creat fs other :
  save_image s filename creat fs !! other = fs !! other
  ∨ (filename = Some other ∧ fs !! other = None ∧ creat other = true).
Proof.
  unfold save_image. destruct filename as [name|]; [|by left].
  destruct (fs !! name) as [old|] eqn:Hname; [by left|].
  destruct (creat name) eqn:Hcreat; [|by left].
  destruct (decide (name = other)) as [->|Hne].
  - by right.
  - left. by rewrite lookup_insert_ne.
Qed.

(** ** Suspend and resume across two runs *)

Lemma step_shape s w s' w' st : step s w = Ok (s', w', st) → same_shape s s'.
Proof.
  intros (b & t & Hf & Hex)%step_executed.
  apply fetch_shape in Hf. apply executed_shape in Hex.
  unfold same_shape in *. intuition congruence.
Qed.

Lemma resume_core_result fuel s w s' w' :
  resume_core fuel s w = Some (Ok (s', w')) →
  same_shape s s' ∧ 0 ≤ pc s' < 2 ^ 32.
Proof.
  revert s w. induction fuel as [|fuel IH]; intros s w; [discriminate|].
  simpl. destruct (step s w) as [[[s1 w1] st]|e] eqn:Hstep; [|discriminate].
  pose proof (step_shape _ _ _ _ _ Hstep) as Hs1.
  destruct st.
  - intros [Hs2 Hpc]%IH. split; [|done].
    unfold same_shape in *. intuition congruence.
  - intros ?; simplify_eq. split; [done|].
    destruct (step_halted_inv _ _ _ _ Hstep) as (b & Hf & _).
    unfold fetch in Hf. inv_bind. simpl. apply u32_range.
Qed.

(** A run that ends normally with the counter still inside the pool and
    saves under a free name can be taken up again when [open] could create
    the file: nothing is reported, and loading that image in a new process
    gives a machine with the counter and the pool of the first run's end,
    and with registers and flags at zero.  When [open] fails on the name,
    [perror] reports it, the exit status is 0 all the same, no file is
    written, and the later load finds nothing to open. *)
Theorem suspend_then_resume fuel lf name creat fs junk w core fs' w' err junk2 :
  main fuel lf (Some name) creat fs junk w = Some (Exited 0 core fs' w' err) →
  fs !! name = None →
  pc core < MEM_SIZE →
  (creat name = true →
     err = []
     ∧ load_image Core1 (Some name) fs' junk2
       = Loaded (mkPU (pc core) 0 (replicate 8 0) (pmem core) MEM_SIZE))
  ∧ (creat name = false →
       err = [Perror name] ∧ fs' = fs
       ∧ load_image Core1 (Some name) fs' junk2 = LoadFailed (ErrOpen name) Core1).
Proof.
  intros Hmain Hfree Hpc. unfold main in Hmain.
  destruct (load_image Core1 lf fs junk) as [s| |] eqn:Hload;
    try (simplify_eq; discriminate).
  destruct (resume_core fuel s w) as [[[s' w1]|e]|] eqn:Hrun;
    try (simplify_eq; discriminate).
  injection Hmain as -> <- -> <-.
  destruct (load_image_inv _ _ _ _ _ Hload) as (Hlen & Hsz & _).
  destruct (resume_core_result _ _ _ _ _ Hrun) as [(_ & Hl & Hs) H0].
  split; intros Hcreat.
  - split; [unfold save_stderr; by rewrite Hfree, Hcreat|].
    apply (load_saved Core1); [congruence | congruence | lia | done | done].
  - unfold save_stderr, save_image. rewrite Hfree, Hcreat.
    repeat split. unfold load_image. by rewrite Hfree.
Qed.

Lemma suspend_then_resume_witness :
  let core := image_of 4 [9; 0; 0; 0; 0; 0; 0; 0] [MOV; num_ 9; R0; SUS] in
  let fs : gmap string (list Z) :=
    {[ "boot.img" := header_bytes (mkHeader MAGIC 144 128 0)
                     ++ pmem (image_of 0 [] [MOV; num_ 9; R0; SUS]) ]} in
  load_image Core1 (Some "core.img")
    (save_image core (Some "core.img") (λ _, true) fs) []
  = Loaded (mkPU 4 0 (replicate 8 0) (pmem core) MEM_SIZE).
Proof.
  intros core fs.
  apply (suspend_then_resume 5 (Some "boot.img") "core.img" (λ _, true) fs [] quiet
           core (save_image core (Some "core.img") (λ _, true) fs) quiet [] []);
    first [by vm_compute | reflexivity].
Defined.

(** ** The argument loop *)

Ltac in_args :=
  first [ assumption
        | apply list_elem_of_here
        | apply list_elem_of_further; in_args ].

Lemma parse_args_sources_le n : ∀ args o,
  (length args ≤ n)%nat →
  (debug (parse_args args o) = true → debug o = true ∨ "-d" ∈ args)
  ∧ (∀ f, loadfile (parse_args args o) = Some f → loadfile o = Some f ∨ f ∈ args)
  ∧ (∀ f, savefile (parse_args args o) = Some f → savefile o = Some f ∨ f ∈ args).
Proof.
  induction n as [|n IH]; intros args o Hlen.
  { destruct args; [|simpl in Hlen; lia]. simpl. auto. }
  destruct args as [|arg rest]; [simpl; auto|].
  simpl in Hlen. simpl.
  destruct (String.eqb_spec arg "-s") as [->|Hs].
  { destruct rest as [|name rest']; simpl.
    - repeat split; [auto | auto | discriminate].
    - destruct (IH rest' (mkOptions (loadfile o) (Some name) (debug o)))
        as (Hd & Hl & Hsv); [simpl in Hlen; lia|]. simpl in *.
      repeat split.
      + intros [?|?]%Hd; [auto|]. right. in_args.
      + intros f [?|?]%Hl; [auto|]. right. in_args.
      + intros f [?|?]%Hsv; right; [simplify_eq|]; in_args. }
  destruct (String.eqb_spec arg "-l") as [->|Hl0].
  { destruct rest as [|name rest']; simpl.
    - repeat split; [auto | discriminate | auto].
    - destruct (IH rest' (mkOptions (Some name) (savefile o) (debug o)))
        as (Hd & Hl & Hsv); [simpl in Hlen; lia|]. simpl in *.
      repeat split.
      + intros [?|?]%Hd; [auto|]. right. in_args.
      + intros f [?|?]%Hl; right; [simplify_eq|]; in_args.
      + intros f [?|?]%Hsv; [auto|]. right. in_args. }
  destruct (String.eqb_spec arg "-d") as [->|Hd0].
  { destruct (IH rest (mkOptions (loadfile o) (savefile o) true))
      as (Hd & Hl & Hsv); [lia|]. simpl in *.
    repeat split.
    + intros _. right. in_args.
    + intros f [?|?]%Hl; [auto|]. right. in_args.
    + intros f [?|?]%Hsv; [auto|]. right. in_args. }
  destruct (IH rest (mkOptions (Some arg) (savefile o) (debug o)))
    as (Hd & Hl & Hsv); [lia|]. simpl in *.
  repeat split.
  + intros [?|?]%Hd; [auto|]. right. in_args.
  + intros f [?|?]%Hl; right; [simplify_eq|]; in_args.
  + intros f [?|?]%Hsv; [auto|]. right. in_args.
Qed.

(** The argument loop invents nothing: debugging is on at the end only
    if it was on before or [-d] is among the arguments, and a file name it
    settles on was either set before or is one of the arguments. *)
Theorem parse_args_sources args o :
  (debug (parse_args args o) = true → debug o = true ∨ "-d" ∈ args)
  ∧ (∀ f, loadfile (parse_args args o) = Some f → loadfile o = Some f ∨ f ∈ args)
  ∧ (∀ f, savefile (parse_args args o) = Some f → savefile o = Some f ∨ f ∈ args).
Proof.
  intros. by apply (parse_args_sources_le (length args)).
Qed.

(** ** SUB as an unsigned comparison *)

(** For any two 32-bit operand values, the CARRY flag after SUB says
    whether the subtrahend was the larger one, and the ZERO flag whether
    the two were equal: SUB is an unsigned comparison of its operands. *)
Theorem op_SUB_compares s s' expr addr s1 s2 old delta :
  fetch s = Ok (expr, s1) →
  fetch s1 = Ok (addr, s2) →
  obj_read s addr = Ok old →
  obj_read s expr = Ok delta →
  0 ≤ old < 2 ^ 32 →
  0 ≤ delta < 2 ^ 32 →
  op_SUB s = Ok s' →
  isflag s' FL_CARRY = (if bool_decide (old < delta) then FL_CARRY else 0)
  ∧ isflag s' FL_ZERO = (if bool_decide (old = delta) then FL_ZERO else 0).
Proof.
  intros Hf1 Hf2 Hold Hdelta Ho Hd Hsub.
  pose proof (op_SUB_fr _ _ _ _ _ _ _ _ Hf1 Hf2 Hold Hdelta Hsub) as Hfr.
  unfold isflag. rewrite Hfr.
  match goal with |- Z.land (fr ?x) _ = _ ∧ _ =>
    fold (isflag x FL_CARRY) (isflag x FL_ZERO) end.
  rewrite isflag_carry_after, isflag_zero_after. split.
  - rewrite (bool_decide_ext (u32 (old - delta) > old) (old < delta)) by mod_arith.
    destruct (bool_decide (old < delta)); reflexivity.
  - rewrite (bool_decide_ext (u32 (old - delta) = 0) (old = delta)) by mod_arith.
    destruct (bool_decide (old = delta)); reflexivity.
Qed.

Lemma op_SUB_compares_witness :
  let s' := mkPU 3 2 [2147483548; 400; 0; 0; 0; 0; 0; 0]
              (pmem (image_of 1 [] [SUB; R1; R0])) 128 in
  isflag s' FL_CARRY = (if bool_decide (300 < 400) then FL_CARRY else 0)
  ∧ isflag s' FL_ZERO = (if bool_decide (300 = 400) then FL_ZERO else 0).
Proof.
  intros s'.
  set (s := image_of 1 [300; 400; 0; 0; 0; 0; 0; 0] [SUB; R1; R0]).
  apply (op_SUB_compares s s' R1 R0 (set_pc s 2) (set_pc s 3) 300 400);
    first [reflexivity | lia].
Defined.

(** ** Each opcode as an equation on the state *)

Lemma fetch_peek s b :
  peek s 0 = Some b → pc s + 1 < 2 ^ 32 →
  fetch s = Ok (b, set_pc s (pc s + 1)).
Proof.
  unfold peek, fetch, mem_get. rewrite Z.add_0_r. intros Hb Hpc.
  rewrite Hb. simpl. apply at_index_Some in Hb as [H0 _].
  by rewrite u32_small by lia.
Qed.

Lemma peek_set_pc s p i : peek (set_pc s p) i = at_index (pmem s) (p + i).
Proof. done. Qed.

Lemma fetch_two s x y :
  peek s 0 = Some x → peek s 1 = Some y → pc s + 2 < 2 ^ 32 →
  fetch s = Ok (x, set_pc s (pc s + 1))
  ∧ fetch (set_pc s (pc s + 1)) = Ok (y, set_pc s (pc s + 2)).
Proof.
  intros Hx Hy Hpc. pose proof (at_index_Some _ _ _ Hx) as [H0 _].
  split; [apply fetch_peek; [done|lia]|].
  rewrite (fetch_peek _ y); simpl.
  - by replace (pc s + 1 + 1) with (pc s + 2) by lia.
  - rewrite peek_set_pc. by rewrite Z.add_0_r.
  - lia.
Qed.

Lemma step_dispatch s w opc :
  peek s 0 = Some opc → 0 ≤ opc ≤ 255 → pc s + 1 < 2 ^ 32 →
  step s w =
    (h ← op opc;
     match h with
     | Some f => '(s', w') ← f (set_pc s (pc s + 1)) w;
         Ok (s', w', if bool_decide (opc ≠ SUS) then RUNNING else HALTED)
     | None => Ok (set_pc s (pc s + 1), w, HALTED)
     end).
Proof.
  intros Hp Hb Hpc. unfold step. rewrite (fetch_peek s opc) by done. simpl.
  by rewrite u8_small by lia.
Qed.

Lemma step_no_io s w opc f :
  peek s 0 = Some opc → 0 < opc ≤ 255 → pc s + 1 < 2 ^ 32 →
  op opc = Ok (Some (no_io f)) →
  step s w = (s' ← f (set_pc s (pc s + 1)); Ok (s', w, RUNNING)).
Proof.
  intros Hp Hb Hpc Hop. rewrite (step_dispatch s w opc) by (done || lia).
  rewrite Hop. simpl. unfold no_io.
  rewrite bool_decide_true by (unfold SUS; lia).
  by destruct (f _).
Qed.

Lemma step_IN_at s w :
  peek s 0 = Some IN → pc s + 1 < 2 ^ 32 →
  step s w = ('(s', w') ← op_IN (set_pc s (pc s + 1)) w; Ok (s', w', RUNNING)).
Proof.
  intros Hp Hpc. by rewrite (step_dispatch s w IN) by (done || unfold IN; lia).
Qed.

Lemma op_MOV_eq t e a v :
  peek t 0 = Some e → peek t 1 = Some a → pc t + 2 < 2 ^ 32 →
  isnum a = 0 → obj_read t e = Ok v →
  op_MOV t = cell_set (set_pc t (pc t + 2)) (obj_cell (a `div` 2)) v.
Proof.
  intros He Ha Hpc Hnum Hv.
  destruct (fetch_two t e a He Ha Hpc) as [Hf1 Hf2].
  unfold op_MOV. rewrite Hf1; simpl. rewrite Hf2; simpl.
  rewrite obj_write_ref by done.
  change (obj_read (set_pc t (pc t + 2)) e) with (obj_read t e).
  by rewrite Hv.
Qed.

Lemma op_ATP_eq t e ix a v :
  peek t 0 = Some e → peek t 1 = Some ix → pc t + 2 < 2 ^ 32 →
  isnum ix = 0 → obj_read t ix = Ok a → 0 ≤ a < 2 ^ 31 →
  obj_read t e = Ok v →
  op_ATP t = cell_set (set_pc t (pc t + 2)) (obj_cell a) v.
Proof.
  intros He Hix Hpc Hnum Ha Hrange Hv.
  destruct (fetch_two t e ix He Hix Hpc) as [Hf1 Hf2].
  unfold op_ATP. rewrite Hf1; simpl. rewrite Hf2; simpl.
  rewrite bool_decide_false by lia.
  change (obj_read (set_pc t (pc t + 2)) ix) with (obj_read t ix).
  rewrite Ha; simpl.
  rewrite obj_write_ref by apply isnum_addr_.
  change (obj_read (set_pc t (pc t + 2)) e) with (obj_read t e).
  rewrite Hv; simpl. by rewrite addr_index, Z.mod_small.
Qed.

Lemma op_MPC_eq t a :
  peek t 0 = Some a → pc t + 1 < 2 ^ 31 → isnum a = 0 →
  op_MPC t = cell_set (set_pc t (pc t + 1)) (obj_cell (a `div` 2)) (pc t + 1).
Proof.
  intros Ha Hpc Hnum. pose proof (at_index_Some _ _ _ Ha) as [H0 _].
  unfold op_MPC. rewrite (fetch_peek t a) by (done || lia). simpl.
  rewrite obj_write_ref by done.
  rewrite obj_read_num by (by rewrite isnum_num_). simpl.
  by rewrite tonum_num_, Z.mod_small by lia.
Qed.

Lemma op_ADD_eq t e a old delta :
  peek t 0 = Some e → peek t 1 = Some a → pc t + 2 < 2 ^ 32 →
  isnum a = 0 → obj_read t a = Ok old → obj_read t e = Ok delta →
  0 ≤ old → 0 ≤ delta → old + delta < 2 ^ 31 →
  op_ADD t = cell_set (setzf (setcf (set_pc t (pc t + 2)) false)
                             (bool_decide (old + delta = 0)))
                      (obj_cell (a `div` 2)) (old + delta).
Proof.
  intros He Ha Hpc Hnum Hold Hdelta Ho Hd Hsum.
  destruct (fetch_two t e a He Ha Hpc) as [Hf1 Hf2].
  unfold op_ADD. rewrite Hf1; simpl. rewrite Hf2; simpl.
  change (obj_read (set_pc t (pc t + 2)) a) with (obj_read t a).
  change (obj_read (set_pc t (pc t + 2)) e) with (obj_read t e).
  rewrite Hold; simpl. rewrite Hdelta; simpl.
  rewrite (u32_small (old + delta)) by lia.
  rewrite (bool_decide_false (old + delta < old)) by lia.
  rewrite obj_write_ref by done.
  rewrite obj_read_num by (by rewrite isnum_num_). simpl.
  by rewrite tonum_num_, Z.mod_small by lia.
Qed.

Lemma op_SUB_eq t e a old delta :
  peek t 0 = Some e → peek t 1 = Some a → pc t + 2 < 2 ^ 32 →
  isnum a = 0 → obj_read t a = Ok old → obj_read t e = Ok delta →
  0 ≤ delta ≤ old → old < 2 ^ 31 →
  op_SUB t = cell_set (setzf (setcf (set_pc t (pc t + 2)) false)
                             (bool_decide (old - delta = 0)))
                      (obj_cell (a `div` 2)) (old - delta).
Proof.
  intros He Ha Hpc Hnum Hold Hdelta Hd Ho.
  destruct (fetch_two t e a He Ha Hpc) as [Hf1 Hf2].
  unfold op_SUB. rewrite Hf1; simpl. rewrite Hf2; simpl.
  change (obj_read (set_pc t (pc t + 2)) a) with (obj_read t a).
  change (obj_read (set_pc t (pc t + 2)) e) with (obj_read t e).
  rewrite Hold; simpl. rewrite Hdelta; simpl.
  rewrite (u32_small (old - delta)) by lia.
  rewrite (bool_decide_false (old - delta > old)) by lia.
  rewrite obj_write_ref by done.
  rewrite obj_read_num by (by rewrite isnum_num_). simpl.
  by rewrite tonum_num_, Z.mod_small by lia.
Qed.

Lemma op_IN_NUM_eq t w a n rest :
  peek t 0 = Some IO_NUM → peek t 1 = Some a → pc t + 2 < 2 ^ 32 →
  isnum a = 0 → stdin w = n :: rest → tty w = false →
  op_IN t w =
    (s' ← cell_set (set_pc t (pc t + 2)) (obj_cell (a `div` 2)) (n `mod` 2 ^ 31);
     Ok (s', mkWorld rest (stdout w) false)).
Proof.
  intros Hch Ha Hpc Hnum Hin Htty.
  destruct (fetch_two t IO_NUM a Hch Ha Hpc) as [Hf1 Hf2].
  unfold op_IN. rewrite Hf1; simpl. rewrite Hf2; simpl.
  unfold getinp. simpl. rewrite Htty, Hin.
  rewrite obj_write_ref by done.
  rewrite obj_read_num by (by rewrite isnum_num_). simpl.
  rewrite tonum_num_.
  replace (u32 n `mod` 2 ^ 31) with (n `mod` 2 ^ 31) by mod_arith.
  by rewrite Htty.
Qed.

Lemma op_JIF_eq t flag a v :
  peek t 0 = Some flag → peek t 1 = Some a → pc t + 2 < 2 ^ 32 →
  obj_read t a = Ok v →
  op_JIF t = Ok (set_pc t (if bool_decide (isflag t flag = 0) then v else pc t + 2)).
Proof.
  intros Hfl Ha Hpc Hv.
  destruct (fetch_two t flag a Hfl Ha Hpc) as [Hf1 Hf2].
  unfold op_JIF. rewrite Hf1; simpl. rewrite Hf2; simpl.
  change (isflag (set_pc t (pc t + 2)) flag) with (isflag t flag).
  change (obj_read (set_pc t (pc t + 2)) a) with (obj_read t a).
  rewrite Hv. simpl. by case_bool_decide.
Qed.

Lemma op_JMR_eq t a v :
  peek t 0 = Some a → pc t + 1 < 2 ^ 32 → obj_read t a = Ok v →
  op_JMR t = Ok (set_pc t v).
Proof.
  intros Ha Hpc Hv. unfold op_JMR. rewrite (fetch_peek t a) by done. simpl.
  change (obj_read (set_pc t (pc t + 1)) a) with (obj_read t a).
  by rewrite Hv.
Qed.




(** ** The boot code of the built-in image *)

Lemma setflags_alu s c z :
  setzf (setcf s c) z = set_fr s (alu_flags (fr s) c z).
Proof. by destruct c, z. Qed.

Lemma alu_flags_zero f c z : Z.land (alu_flags f c z) FL_ZERO = Z.b2z z.
Proof. apply (isflag_zero_after (mkPU 0 f [] [] 0)). Qed.

Lemma boot_lookup mem q :
  take 51 mem = take 51 MEM → (q < 51)%nat → mem !! q = MEM !! q.
Proof.
  intros Hcode Hq.
  rewrite <-(lookup_take_lt mem 51 q), <-(lookup_take_lt MEM 51 q) by done.
  by rewrite Hcode.
Qed.

Lemma mem_set_eq s i v :
  0 ≤ i → (Z.to_nat i < length (pmem s))%nat →
  cell_set s (InMem i) v = Ok (set_pmem s (<[Z.to_nat i := u8 v]> (pmem s))).
Proof.
  intros H0 Hi. simpl. unfold mem_set, at_index.
  rewrite bool_decide_true by done.
  by destruct (lookup_lt_is_Some_2 _ _ Hi) as [x ->].
Qed.

(** [resume_core] passes through the states of [runs]. *)
Lemma runs_resume_core n s w s' w' :
  runs n s w s' w' →
  ∀ fuel, resume_core (n + fuel) s w = resume_core fuel s' w'.
Proof.
  induction 1 as [s w|n s w s1 w1 s2 w2 _ IH Hstep]; intros fuel; [done|].
  replace (S n + fuel)%nat with (n + S fuel)%nat by lia.
  rewrite IH. simpl. by rewrite Hstep.
Qed.

Lemma runs_reaches n s w s' w' : runs n s w s' w' → reaches s w s' w'.
Proof.
  induction 1; [apply reaches_here|]. by eapply reaches_step.
Qed.

Ltac peek_boot Hcode :=
  unfold peek, at_index; simpl;
  first [ reflexivity
        | rewrite (boot_lookup _ _ Hcode) by lia; reflexivity ].

Lemma boot_iteration k code tail (j : nat) c f r5 mem n0 s0 w0 :
  51 ≤ k →
  k + Z.of_nat (length code) ≤ 120 →
  code !! j = Some c →
  boot_mem k code j mem →
  runs n0 s0 w0
    (mkPU 17 f [0; k; Z.of_nat (length code) - Z.of_nat j; 124; 17; r5; 0; k + Z.of_nat j] mem 128)
    (mkWorld (c :: tail) [] false) →
  ∃ f' mem',
    boot_mem k code (S j) mem'
    ∧ runs (5 + n0) s0 w0
        (mkPU (if bool_decide (Z.of_nat (length code) - Z.of_nat j - 1 = 0) then 32 else 17) f'
              [0; k; Z.of_nat (length code) - Z.of_nat j - 1; 124; 17; c `mod` 2 ^ 31; 0; k + Z.of_nat j + 1]
              mem' 128)
        (mkWorld tail [] false).
Proof.
  intros Hk Hend Hc (Hlen & Hcode & Hvars & Hdone) Hr.
  pose proof (lookup_lt_Some _ _ _ Hc) as Hj.
  set (n := Z.of_nat (length code)) in *.
  assert (Hc31 : 0 ≤ c `mod` 2 ^ 31 < 2 ^ 31) by (apply Z.mod_pos_bound; lia).
  (* 17: IN IO_NUM, R5 *)
  eapply runs_S in Hr; cycle 1.
  { rewrite step_IN_at; [|peek_boot Hcode|simpl; lia].
    rewrite (op_IN_NUM_eq _ _ R5 c tail);
      [|peek_boot Hcode|peek_boot Hcode|simpl; lia|done|done|done].
    simpl. reflexivity. }
  (* 20: ATP R5, R7 *)
  eapply runs_S in Hr; cycle 1.
  { rewrite (step_no_io _ _ ATP op_ATP); [|peek_boot Hcode|done|simpl; lia|done].
    rewrite (op_ATP_eq _ R5 R7 (k + Z.of_nat j) (c `mod` 2 ^ 31));
      [|peek_boot Hcode|peek_boot Hcode|simpl; lia|done|done|lia|done].
    rewrite obj_cell_pool by lia.
    rewrite mem_set_eq by (simpl; lia). simpl. reflexivity. }
  (* 23: ADD N1, R7 *)
  eapply runs_S in Hr; cycle 1.
  { assert (Hcode' : take 51 (<[Z.to_nat (k + Z.of_nat j) := u8 (c `mod` 2 ^ 31)]> mem) = take 51 MEM).
    { rewrite take_insert_ge by lia. done. }
    rewrite (step_no_io _ _ ADD op_ADD); [|peek_boot Hcode'|done|simpl; lia|done].
    rewrite (op_ADD_eq _ N1 R7 (k + Z.of_nat j) 1);
      [|peek_boot Hcode'|peek_boot Hcode'|simpl; lia|done|done|done|lia|lia|lia].
    rewrite setflags_alu. simpl. reflexivity. }
  (* 26: SUB N1, R2 *)
  eapply runs_S in Hr; cycle 1.
  { assert (Hcode' : take 51 (<[Z.to_nat (k + Z.of_nat j) := u8 (c `mod` 2 ^ 31)]> mem) = take 51 MEM).
    { rewrite take_insert_ge by lia. done. }
    rewrite (step_no_io _ _ SUB op_SUB); [|peek_boot Hcode'|done|simpl; lia|done].
    rewrite (op_SUB_eq _ N1 R2 (n - Z.of_nat j) 1);
      [|peek_boot Hcode'|peek_boot Hcode'|simpl; lia|done|done|done|lia|lia].
    rewrite setflags_alu. simpl. reflexivity. }
  (* 29: JIF FL_ZERO, R4 *)
  eapply runs_S in Hr; cycle 1.
  { assert (Hcode' : take 51 (<[Z.to_nat (k + Z.of_nat j) := u8 (c `mod` 2 ^ 31)]> mem) = take 51 MEM).
    { rewrite take_insert_ge by lia. done. }
    rewrite (step_no_io _ _ JIF op_JIF); [|peek_boot Hcode'|done|simpl; lia|done].
    rewrite (op_JIF_eq _ FL_ZERO R4 17);
      [|peek_boot Hcode'|peek_boot Hcode'|simpl; lia|done].
    unfold isflag. simpl. rewrite alu_flags_zero. simpl. reflexivity. }
  cbv [set_pc set_r set_fr set_pmem pc fr r pmem pmemsize] in Hr.
  match type of Hr with
  | runs _ _ _ (mkPU ?p ?F _ ?M _) _ =>
      exists F, M; split;
        [|replace (if bool_decide (n - Z.of_nat j - 1 = 0) then 32 else 17) with p;
          [exact Hr | by destruct (bool_decide (n - Z.of_nat j - 1 = 0))]]
  end.
  repeat split.
  - by rewrite length_insert.
  - by rewrite take_insert_ge by lia.
  - rewrite list_lookup_insert_ne by lia. done.
  - intros i c' Hi Hc'. destruct (decide (i = j)) as [->|Hne].
    + replace (Z.to_nat k + j)%nat with (Z.to_nat (k + Z.of_nat j)) by lia.
      rewrite list_lookup_insert_eq by lia.
      rewrite Hc in Hc'. injection Hc' as <-. f_equal. mod_arith.
    + rewrite list_lookup_insert_ne by lia. apply Hdone; [lia|done].
Qed.


Lemma boot_prologue k n code tail :
  51 ≤ k < 120 → 0 ≤ n < 2 ^ 31 →
  boot_mem k code 0 (<[124%nat := k]> MEM)
  ∧ runs 6 boot0 (mkWorld (k :: n :: tail) [] false)
      (mkPU 17 0 [0; k; n; 124; 17; 0; 0; k] (<[124%nat := k]> MEM) 128)
      (mkWorld tail [] false).
Proof.
  intros Hk Hn.
  assert (Hcode : take 51 MEM = take 51 MEM) by done.
  assert (Hcode' : take 51 (<[124%nat := k]> MEM) = take 51 MEM) by done.
  split.
  { repeat split; try done. intros i c Hi. lia. }
  pose proof (runs_0 boot0 (mkWorld (k :: n :: tail) [] false)) as Hr.
  unfold boot0 in Hr at 2.
  (* 0: IN IO_NUM, R1 *)
  eapply runs_S in Hr; cycle 1.
  { rewrite step_IN_at; [|peek_boot Hcode|simpl; lia].
    rewrite (op_IN_NUM_eq _ _ R1 k (n :: tail));
      [|peek_boot Hcode|peek_boot Hcode|simpl; lia|done|done|done].
    rewrite Z.mod_small by lia. simpl. reflexivity. }
  (* 3: IN IO_NUM, R2 *)
  eapply runs_S in Hr; cycle 1.
  { rewrite step_IN_at; [|peek_boot Hcode|simpl; lia].
    rewrite (op_IN_NUM_eq _ _ R2 n tail);
      [|peek_boot Hcode|peek_boot Hcode|simpl; lia|done|done|done].
    rewrite Z.mod_small by lia. simpl. reflexivity. }
  (* 6: MOV num_(VARS), R3 *)
  eapply runs_S in Hr; cycle 1.
  { rewrite (step_no_io _ _ MOV op_MOV); [|peek_boot Hcode|done|simpl; lia|done].
    rewrite (op_MOV_eq _ (num_ VARS) R3 124);
      [|peek_boot Hcode|peek_boot Hcode|simpl; lia|done|done].
    simpl. reflexivity. }
  (* 9: ATP R1, R3 *)
  eapply runs_S in Hr; cycle 1.
  { rewrite (step_no_io _ _ ATP op_ATP); [|peek_boot Hcode|done|simpl; lia|done].
    rewrite (op_ATP_eq _ R1 R3 124 k);
      [|peek_boot Hcode|peek_boot Hcode|simpl; lia|done|done|lia|done].
    rewrite obj_cell_pool by lia.
    rewrite mem_set_eq by (simpl; lia). rewrite u8_small by lia.
    simpl. reflexivity. }
  (* 12: MOV R1, R7 *)
  eapply runs_S in Hr; cycle 1.
  { rewrite (step_no_io _ _ MOV op_MOV); [|peek_boot Hcode'|done|simpl; lia|done].
    rewrite (op_MOV_eq _ R1 R7 k);
      [|peek_boot Hcode'|peek_boot Hcode'|simpl; lia|done|done].
    simpl. reflexivity. }
  (* 15: MPC R4 *)
  eapply runs_S in Hr; cycle 1.
  { rewrite (step_no_io _ _ MPC op_MPC); [|peek_boot Hcode'|done|simpl; lia|done].
    rewrite (op_MPC_eq _ R4); [|peek_boot Hcode'|simpl; lia|done].
    simpl. reflexivity. }
  exact Hr.
Qed.

Lemma boot_loop k code tail (j : nat) :
  51 ≤ k →
  k + Z.of_nat (length code) ≤ 120 →
  (j < length code)%nat →
  ∃ f r5 mem,
    boot_mem k code j mem
    ∧ runs (6 + 5 * j) boot0
        (mkWorld (k :: Z.of_nat (length code) :: code ++ tail) [] false)
        (mkPU 17 f [0; k; Z.of_nat (length code) - Z.of_nat j; 124; 17; r5; 0;
                    k + Z.of_nat j] mem 128)
        (mkWorld (drop j code ++ tail) [] false).
Proof.
  intros Hk Hend. induction j as [|j IH]; intros Hj.
  - destruct (boot_prologue k (Z.of_nat (length code)) code (code ++ tail))
      as [Hmem Hr]; [lia|lia|].
    exists 0, 0, (<[124%nat := k]> MEM). split; [done|].
    by rewrite Z.sub_0_r, Z.add_0_r.
  - destruct IH as (f & r5 & mem & Hmem & Hr); [lia|].
    destruct (lookup_lt_is_Some_2 code j) as [c Hc]; [lia|].
    rewrite (drop_S _ _ _ Hc) in Hr. simpl in Hr.
    destruct (boot_iteration k code (drop (S j) code ++ tail) j c f r5 mem _ _ _
                Hk Hend Hc Hmem Hr) as (f' & mem' & Hmem' & Hr').
    rewrite bool_decide_false in Hr' by lia.
    exists f', (c `mod` 2 ^ 31), mem'. split; [done|].
    replace (6 + 5 * S j)%nat with (5 + (6 + 5 * j))%nat by lia.
    replace (Z.of_nat (length code) - Z.of_nat (S j))
      with (Z.of_nat (length code) - Z.of_nat j - 1) by lia.
    by replace (k + Z.of_nat (S j)) with (k + Z.of_nat j + 1) by lia.
Qed.

Lemma boot_epilogue k code f r5 mem a b rest n0 s0 w0 :
  51 ≤ k →
  k + Z.of_nat (length code) ≤ 120 →
  boot_mem k code (length code) mem →
  runs n0 s0 w0
    (mkPU 32 f [0; k; 0; 124; 17; r5; 0; k + Z.of_nat (length code)] mem 128)
    (mkWorld (a :: b :: rest) [] false) →
  ∃ mem',
    boot_mem k code (length code) mem'
    ∧ mem' !! 120%nat = Some 34
    ∧ runs (6 + n0) s0 w0
        (mkPU k f [0; k; a `mod` 2 ^ 31; 48; 17; r5; b `mod` 2 ^ 31; 121] mem' 128)
        (mkWorld rest [] false).
Proof.
  intros Hk Hend (Hlen & Hcode & Hvars & Hdone) Hr.
  assert (Hcode' : take 51 (<[120%nat := 34]> mem) = take 51 MEM).
  { by rewrite take_insert_ge by lia. }
  (* 32: MPC addr_(GREET) *)
  eapply runs_S in Hr; cycle 1.
  { rewrite (step_no_io _ _ MPC op_MPC); [|peek_boot Hcode|done|simpl; lia|done].
    rewrite (op_MPC_eq _ (addr_ GREET)); [|peek_boot Hcode|simpl; lia|done].
    change (obj_cell (addr_ GREET `div` 2)) with (InMem 120).
    rewrite mem_set_eq by (simpl; lia). simpl. reflexivity. }
  (* 34: MOV num_(GREET + 1), R7 *)
  eapply runs_S in Hr; cycle 1.
  { rewrite (step_no_io _ _ MOV op_MOV); [|peek_boot Hcode'|done|simpl; lia|done].
    rewrite (op_MOV_eq _ (num_ (GREET + 1)) R7 121);
      [|peek_boot Hcode'|peek_boot Hcode'|simpl; lia|done|done].
    simpl. reflexivity. }
  (* 37: IN IO_NUM, R2 *)
  eapply runs_S in Hr; cycle 1.
  { rewrite step_IN_at; [|peek_boot Hcode'|simpl; lia].
    rewrite (op_IN_NUM_eq _ _ R2 a (b :: rest));
      [|peek_boot Hcode'|peek_boot Hcode'|simpl; lia|done|done|done].
    simpl. reflexivity. }
  (* 40: IN IO_NUM, R6 *)
  eapply runs_S in Hr; cycle 1.
  { rewrite step_IN_at; [|peek_boot Hcode'|simpl; lia].
    rewrite (op_IN_NUM_eq _ _ R6 b rest);
      [|peek_boot Hcode'|peek_boot Hcode'|simpl; lia|done|done|done].
    simpl. reflexivity. }
  (* 43: MOV num_(48), R3 *)
  eapply runs_S in Hr; cycle 1.
  { rewrite (step_no_io _ _ MOV op_MOV); [|peek_boot Hcode'|done|simpl; lia|done].
    rewrite (op_MOV_eq _ (num_ 48) R3 48);
      [|peek_boot Hcode'|peek_boot Hcode'|simpl; lia|done|done].
    simpl. reflexivity. }
  (* 46: JMR addr_(VARS) *)
  eapply runs_S in Hr; cycle 1.
  { rewrite (step_no_io _ _ JMR op_JMR); [|peek_boot Hcode'|done|simpl; lia|done].
    rewrite (op_JMR_eq _ (addr_ VARS) k); [|peek_boot Hcode'|simpl; lia|].
    - simpl. reflexivity.
    - unfold obj_read. rewrite bool_decide_false by (intros Hne; by apply Hne).
      change (obj_cell (addr_ VARS `div` 2)) with (InMem 124).
      simpl. unfold mem_get, at_index. simpl.
      rewrite list_lookup_insert_ne by lia.
      change (Z.to_nat 124) with 124%nat. by rewrite Hvars. }
  cbv [set_pc set_r set_fr set_pmem pc fr r pmem pmemsize] in Hr.
  exists (<[120%nat := 34]> mem). split; [|split].
  - repeat split.
    + by rewrite length_insert.
    + done.
    + by rewrite list_lookup_insert_ne by lia.
    + intros i c Hi Hc. rewrite list_lookup_insert_ne by lia. by apply Hdone.
  - apply list_lookup_insert_eq. lia.
  - exact Hr.
Qed.

(** Started without an image, [main] runs the boot code of [MEM]: it
    reads a start address [k], a length and that many numbers from the
    number channel, then two more numbers [a] and [b].  When the kernel
    [code] is not empty and fits between the boot code and the variables
    (51 <= k, k + length <= 120), the loop of [resume_core] comes to the
    kernel's first instruction after 12 + 5 * length iterations, none of
    which halts or faults, and goes on from there: pc is [k], the low
    bytes of [code] lie at [k], the boot code is intact, cell 120 holds the
    warm-boot address 34, cell 124 holds [k], [a] and [b] are in registers
    2 and 6, and nothing has been printed. *)
Theorem boot_loads_kernel fs junk k code a b rest :
  51 ≤ k →
  code ≠ [] →
  k + Z.of_nat (length code) ≤ 120 →
  let w := mkWorld (k :: Z.of_nat (length code) :: code ++ a :: b :: rest) [] false in
  let w' := mkWorld rest [] false in
  let n := (12 + 5 * length code)%nat in
  load_image Core1 None fs junk = Loaded boot0
  ∧ ∃ s',
    runs n boot0 w s' w'
    ∧ (∀ fuel, resume_core (n + fuel) boot0 w = resume_core fuel s' w')
    ∧ (∀ fuel savefile creat,
         main (n + fuel) None savefile creat fs junk w
         = match resume_core fuel s' w' with
           | None => None
           | Some (Fault f) => Some (Aborted f)
           | Some (Ok (s2, w2)) =>
               Some (Exited 0 s2 (save_image s2 savefile creat fs) w2
                            (save_stderr savefile creat fs))
           end)
    ∧ pc s' = k
    ∧ (∀ i c, code !! i = Some c →
         pmem s' !! (Z.to_nat k + i)%nat = Some (c `mod` 256))
    ∧ take 51 (pmem s') = take 51 MEM
    ∧ pmem s' !! 120%nat = Some 34
    ∧ pmem s' !! 124%nat = Some k
    ∧ ∃ last, r s' = [0; k; a `mod` 2 ^ 31; 48; 17; last; b `mod` 2 ^ 31; 121].
Proof.
  intros Hk Hne Hend w w' n. split; [reflexivity|].
  assert (Hn : (0 < length code)%nat) by (destruct code; [done | simpl; lia]).
  destruct (boot_loop k code (a :: b :: rest) (length code - 1) Hk Hend)
    as (f & r5 & mem & Hmem & Hr); [lia|].
  destruct (lookup_lt_is_Some_2 code (length code - 1)) as [c Hc]; [lia|].
  rewrite (drop_S _ _ _ Hc) in Hr.
  remember (6 + 5 * (length code - 1))%nat as n1 eqn:Hn1.
  simpl in Hr.
  destruct (boot_iteration k code _ _ c f r5 mem _ _ _ Hk Hend Hc Hmem Hr)
    as (f' & mem' & Hmem' & Hr').
  rewrite bool_decide_true in Hr' by lia.
  replace (S (length code - 1)) with (length code) in * by lia.
  rewrite drop_all in Hr'. simpl in Hr'.
  replace (Z.of_nat (length code) - Z.of_nat (length code - 1) - 1) with 0 in Hr' by lia.
  replace (k + Z.of_nat (length code - 1) + 1) with (k + Z.of_nat (length code))
    in Hr' by lia.
  destruct (boot_epilogue k code f' _ mem' a b rest _ _ _ Hk Hend Hmem' Hr')
    as (mem'' & (Hlen & Hcode & Hvars & Hdone) & Hgreet & Hfin).
  match type of Hfin with
  | runs ?m _ _ _ _ => replace m with n in Hfin by (subst n n1; lia)
  end.
  pose proof (runs_resume_core _ _ _ _ _ Hfin) as Hloop.
  eexists. split; [exact Hfin|]. split; [exact Hloop|].
  split.
  { intros fuel savefile creat. unfold main.
    change (load_image Core1 None fs junk) with (Loaded boot0).
    cbv iota beta. by rewrite Hloop. }
  simpl. repeat split; try done.
  - intros i c' Hc'. apply Hdone; [|done]. by eapply lookup_lt_Some.
  - by eexists.
Qed.

Lemma boot_loads_kernel_witness :
  let w := mkWorld (57 :: 2 :: [7; 0] ++ 3 :: 4 :: []) [] false in
  ∃ s',
    runs 22 boot0 w s' quiet
    ∧ (∀ fuel, resume_core (22 + fuel) boot0 w = resume_core fuel s' quiet)
    ∧ pc s' = 57
    ∧ pmem s' !! 57%nat = Some 7
    ∧ pmem s' !! 58%nat = Some 0
    ∧ pmem s' !! 120%nat = Some 34
    ∧ pmem s' !! 124%nat = Some 57
    ∧ ∃ last, r s' = [0; 57; 3; 48; 17; last; 4; 121].
Proof.
  intros w.
  destruct (boot_loads_kernel ∅ [] 57 [7; 0] 3 4 [])
    as (_ & s' & Hruns & Hloop & _ & Hpc & Hcode & _ & Hgreet & Hvars & Hregs);
    [lia | done | simpl; lia |].
  exists s'. split; [exact Hruns|]. split; [exact Hloop|]. split; [exact Hpc|].
  split; [exact (Hcode 0%nat 7 eq_refl)|].
  split; [exact (Hcode 1%nat 0 eq_refl)|].
  split; [exact Hgreet|]. split; [exact Hvars | exact Hregs].
Defined.
